(** * VortexArm: the analytic inverse-kinematics solver

    A shallow embedding of [inverse_kinematics.py] ([get_point] and
    [get_angles]) and the properties of its results, followed by the
    solver's caller [update_plot] of [simulator.py] and the servo
    controller class of [ssc32u.py].

    Numbers.  Python floats are modelled by the real numbers [R]: every
    arithmetic operation is exact, so rounding, overflow and underflow are
    outside the model.  What the model keeps is the control flow of the
    code and every place where Python raises on a real-number ground:
    a division by zero ([ZeroDivisionError]) and a square root, arc sine or
    arc cosine outside its domain ([ValueError]).  [math.tan] never raises
    and is modelled by the total function [tan]; statements about a base
    angle go through [x_y_term], so they say nothing special at the
    angles where the real tangent has a pole.

    Where the question is what [get_point] does at the edge of the float
    range, [get_point_float] runs the same lines on binary64 floats, with
    the exceptions of Python's float operators. *)

From Stdlib Require Import Reals Lra Psatz Bool.
From Stdlib Require Import ZArith Lia List Ascii String DecimalString DecimalPos.
From Stdlib Require PrimFloat.
Import ListNotations.

Open Scope R_scope.

(* ================================================================= *)
(** ** Python's numeric primitives over the reals *)

Module Py.

Inductive exn : Set :=
| ZeroDivisionError
| ValueError.

(** The outcome of an expression: a value, or the exception raised. *)
Inductive result (A : Type) : Type :=
| Ok (a : A)
| Raise (e : exn).

Arguments Ok {A} a.
Arguments Raise {A} e.

Definition ret {A : Type} (a : A) : result A := Ok a.

Definition bind {A B : Type} (c : result A) (k : A -> result B) : result B :=
  match c with
  | Ok a => k a
  | Raise e => Raise e
  end.

(** Comparisons, as the booleans a Python [if] tests. *)
Definition eqb (a b : R) : bool := if Req_dec_T a b then true else false.
Definition neb (a b : R) : bool := negb (eqb a b).
Definition ltb (a b : R) : bool := if Rlt_dec a b then true else false.
Definition leb (a b : R) : bool := if Rle_dec a b then true else false.
Definition gtb (a b : R) : bool := ltb b a.
Definition geb (a b : R) : bool := leb b a.

(** [a / b] raises [ZeroDivisionError] when [b] is zero. *)
Definition div (a b : R) : result R :=
  if eqb b 0 then Raise ZeroDivisionError else Ok (a / b).

(** [math.sqrt] raises [ValueError] on a negative argument. *)
Definition sqrt (a : R) : result R :=
  if ltb a 0 then Raise ValueError else Ok (R_sqrt.sqrt a).

(** [math.asin] and [math.acos] raise [ValueError] outside [[-1, 1]]. *)
Definition asin (a : R) : result R :=
  if leb (-1) a && leb a 1 then Ok (Ratan.asin a) else Raise ValueError.

Definition acos (a : R) : result R :=
  if leb (-1) a && leb a 1 then Ok (Ratan.acos a) else Raise ValueError.

(** [min(a, b)] and [max(a, b)] keep the first argument unless the second
    is strictly smaller (resp. larger). *)
Definition min (a b : R) : R := if ltb b a then b else a.
Definition max (a b : R) : R := if gtb b a then b else a.

(** [math.atan2(y, x)]: the angle of the point [(x, y)], in [(-PI, PI]]. *)
Definition atan2 (y x : R) : R :=
  if ltb 0 x then atan (y / x)
  else if ltb x 0 then
         (if leb 0 y then atan (y / x) + PI else atan (y / x) - PI)
  else if ltb 0 y then PI / 2
  else if ltb y 0 then - (PI / 2)
  else 0.

(** [math.degrees] and [math.radians]. *)
Definition degrees (a : R) : R := a * (180 / PI).
Definition radians (a : R) : R := a * (PI / 180).

End Py.

Import Py.

Declare Scope py_scope.
Delimit Scope py_scope with py.
Notation "x <- c ;; k" := (Py.bind c (fun x => k))
  (at level 61, c at next level, right associativity) : py_scope.
Notation "' ( x , y ) <- c ;; k" := (Py.bind c (fun p => let '(x, y) := p in k))
  (at level 61, x name, y name, c at next level, right associativity) : py_scope.
Open Scope py_scope.

(* ================================================================= *)
(** ** inverse_kinematics.py *)

(** A robot geometry [(base, arm1, arm2)] has positive lengths. *)
Definition positive_geometry (base arm1 arm2 : R) : Prop :=
  0 < base /\ 0 < arm1 /\ 0 < arm2.

(** The locals of [get_point], as functions of its arguments.  The code
    computes the quotients with Python's division; the branch in which
    they occur has [x_y_term <> 0], where both agree
    (see [get_point_quadratic]). *)

Definition e_term (x y z base arm1 arm2 : R) : R :=
  (x ^ 2 + y ^ 2 + z ^ 2 - base ^ 2 + arm1 ^ 2 - arm2 ^ 2) / 2.

Definition x_y_term (x y alpha_rad : R) : R := x + y * tan alpha_rad.

Definition tan_term (alpha_rad : R) : R := 1 + tan alpha_rad ^ 2.

Definition quad_a1 (x y z base alpha_rad : R) : R :=
  ((z - base) ^ 2 * tan_term alpha_rad) / (x_y_term x y alpha_rad ^ 2) + 1.

Definition quad_b1 (x y z base arm1 arm2 alpha_rad : R) : R :=
  2 * ((e_term x y z base arm1 arm2 * (z - base) * tan_term alpha_rad)
         / (x_y_term x y alpha_rad ^ 2) + base).

Definition quad_c1 (x y z base arm1 arm2 alpha_rad : R) : R :=
  (e_term x y z base arm1 arm2 ^ 2 * tan_term alpha_rad)
    / (x_y_term x y alpha_rad ^ 2) + base ^ 2 - arm1 ^ 2.

Definition discriminant (x y z base arm1 arm2 alpha_rad : R) : R :=
  quad_b1 x y z base arm1 arm2 alpha_rad ^ 2
  - 4 * quad_a1 x y z base alpha_rad * quad_c1 x y z base arm1 arm2 alpha_rad.

(** Distance from the base joint [(0, 0, base)] to the target. *)
Definition reach_dist (x y z base : R) : R :=
  R_sqrt.sqrt (x ^ 2 + y ^ 2 + (z - base) ^ 2).

(** The elbow height [c] chosen in the branch [x_y_term != 0]. *)
Definition elbow_c (x y z base arm1 arm2 alpha_rad : R) : R :=
  if ltb (discriminant x y z base arm1 arm2 alpha_rad) 0
  then base + arm1 * (z - base) / reach_dist x y z base
  else (quad_b1 x y z base arm1 arm2 alpha_rad
        + R_sqrt.sqrt (discriminant x y z base arm1 arm2 alpha_rad))
       / (2 * quad_a1 x y z base alpha_rad).

(** [get_point(x, y, z, base, arm1, arm2, alpha_rad)]. *)
Definition get_point (x y z base arm1 arm2 alpha_rad : R) : result (R * R * R) :=
  let e := (x ^ 2 + y ^ 2 + z ^ 2 - base ^ 2 + arm1 ^ 2 - arm2 ^ 2) / 2 in
  if neb x 0 || neb y 0 then
    let x_y_term := x + y * tan alpha_rad in
    if eqb x_y_term 0 then
      c <- (if neb z base
            then q <- Py.div e (z - base) ;; ret (base + q)
            else ret (base + arm1)) ;;
      ret (0, 0, c)
    else
      let z_base := z - base in
      let tan_term := 1 + tan alpha_rad ^ 2 in
      q1 <- Py.div (z_base ^ 2 * tan_term) (x_y_term ^ 2) ;;
      let a1 := q1 + 1 in
      q2 <- Py.div (e * z_base * tan_term) (x_y_term ^ 2) ;;
      let b1 := 2 * (q2 + base) in
      q3 <- Py.div (e ^ 2 * tan_term) (x_y_term ^ 2) ;;
      let c1 := q3 + base ^ 2 - arm1 ^ 2 in
      let discriminant := b1 ^ 2 - 4 * a1 * c1 in
      c <- (if ltb discriminant 0 then
              r <- Py.sqrt (x ^ 2 + y ^ 2 + (z - base) ^ 2) ;;
              q <- Py.div (arm1 * (z - base)) r ;;
              ret (base + q)
            else
              d1 <- Py.sqrt discriminant ;;
              Py.div (b1 + d1) (2 * a1)) ;;
      a <- Py.div (e - c * z_base) x_y_term ;;
      let b := a * tan alpha_rad in
      ret (a, b, c)
  else
    ret (0, 0, Py.min (base + arm1) z).

(** The tolerance of the reach test, the literal [0.001]. *)
Definition reach_eps : R := 1 / 1000.

(** The base rotation [alpha] of [get_angles], in radians. *)
Definition base_angle (x y : R) : R :=
  if neb x 0 then atan2 y x
  else if geb y 0 then PI / 2 else - PI / 2.

(** [get_angles(x, y, z, base, arm1, arm2)]. *)
Definition get_angles (x y z base arm1 arm2 : R) : result (R * R * R) :=
  d <- Py.sqrt (x ^ 2 + y ^ 2 + (z - base) ^ 2) ;;
  let alpha := base_angle x y in
  '(theta1, theta2) <-
    (if gtb d (arm1 + arm2 - reach_eps) then
       r <- Py.sqrt (x ^ 2 + y ^ 2) ;;
       ret (atan2 (z - base) r, 0)
     else
       theta1 <- (if neb d 0
                  then q <- Py.div (z - base) d ;; Py.asin q
                  else ret 0) ;;
       cos_theta2 <- Py.div (arm1 ^ 2 + d ^ 2 - arm2 ^ 2) (2 * arm1 * d) ;;
       let cos_theta2 := Py.max (Py.min cos_theta2 1) (-1) in
       theta2 <- Py.acos cos_theta2 ;;
       ret (theta1, theta2)) ;;
  let beta := theta1 + theta2 in
  cos_gamma <- Py.div (arm1 ^ 2 + arm2 ^ 2 - d ^ 2) (2 * arm1 * arm2) ;;
  let cos_gamma := Py.max (Py.min cos_gamma 1) (-1) in
  gamma <- Py.acos cos_gamma ;;
  ret (degrees alpha, degrees beta, degrees gamma).

(** The locals of [get_angles], as functions of its arguments; they are
    what the code computes whenever it does not raise
    (see [get_angles_ok]). *)

Definition clamp (v : R) : R := Py.max (Py.min v 1) (-1).

Definition cos_theta2 (d arm1 arm2 : R) : R :=
  (arm1 ^ 2 + d ^ 2 - arm2 ^ 2) / (2 * arm1 * d).

Definition cos_gamma (d arm1 arm2 : R) : R :=
  (arm1 ^ 2 + arm2 ^ 2 - d ^ 2) / (2 * arm1 * arm2).

(** [beta], the shoulder angle in radians. *)
Definition shoulder_angle (x y z base arm1 arm2 : R) : R :=
  let d := reach_dist x y z base in
  if gtb d (arm1 + arm2 - reach_eps)
  then atan2 (z - base) (R_sqrt.sqrt (x ^ 2 + y ^ 2)) + 0
  else Ratan.asin ((z - base) / d) + Ratan.acos (clamp (cos_theta2 d arm1 arm2)).

(** [gamma], the elbow angle in radians. *)
Definition elbow_angle (x y z base arm1 arm2 : R) : R :=
  Ratan.acos (clamp (cos_gamma (reach_dist x y z base) arm1 arm2)).

(* ================================================================= *)
(** ** Forward kinematics (the reading the properties are stated against) *)

(** The position reached by the end effector for joint angles in degrees:
    rotate by the base angle about the vertical axis, extend by [arm1] at
    the shoulder angle, then extend by [arm2] at the angle [forearm_deg]
    measured from the horizontal. *)
Definition forward (base arm1 arm2 base_deg shoulder_deg forearm_deg : R)
  : R * R * R :=
  let alpha := radians base_deg in
  let beta := radians shoulder_deg in
  let phi := radians forearm_deg in
  let rho := arm1 * cos beta + arm2 * cos phi in
  (rho * cos alpha, rho * sin alpha, base + arm1 * sin beta + arm2 * sin phi).

(** Forward kinematics with the forearm at the cumulative angle
    shoulder + elbow. *)
Definition forward_cumulative (base arm1 arm2 : R) (angles : R * R * R)
  : R * R * R :=
  let '(base_deg, shoulder_deg, elbow_deg) := angles in
  forward base arm1 arm2 base_deg shoulder_deg (shoulder_deg + elbow_deg).

(** Forward kinematics with the elbow angle read as the interior angle
    between the two links (180 degrees is the straight arm): the forearm
    points at shoulder + elbow - 180 degrees. *)
Definition forward_interior (base arm1 arm2 : R) (angles : R * R * R)
  : R * R * R :=
  let '(base_deg, shoulder_deg, elbow_deg) := angles in
  forward base arm1 arm2 base_deg shoulder_deg
          (shoulder_deg + elbow_deg - 180).

(** Euclidean distance between two points. *)
Definition dist3 (p q : R * R * R) : R :=
  let '(px, py, pz) := p in
  let '(qx, qy, qz) := q in
  R_sqrt.sqrt ((px - qx) ^ 2 + (py - qy) ^ 2 + (pz - qz) ^ 2).

(** The elbow position the returned angles stand for: rotate by the base
    angle about the vertical axis and extend by [arm1] at the shoulder
    angle (angles in degrees). *)
Definition forward_elbow (base arm1 : R) (angles : R * R * R) : R * R * R :=
  let '(base_deg, shoulder_deg, _) := angles in
  let alpha := radians base_deg in
  let beta := radians shoulder_deg in
  (arm1 * cos beta * cos alpha, arm1 * cos beta * sin alpha,
   base + arm1 * sin beta).

(* ================================================================= *)
(** ** inverse_kinematics.py on binary64 floats *)

(** Python's float operators as they raise: [x ** 2] raises
    [OverflowError] when the square of a finite [x] is infinite and
    returns [0.0] on underflow, [a / b] raises [ZeroDivisionError] when
    [b == 0.0], [math.sqrt] raises [ValueError] when it would return a NaN
    for an argument that is not one; [+], [-] and [*] never raise.  The
    square is the correctly rounded product. *)

Module PyFloat.

Import PrimFloat.
Local Open Scope float_scope.

Inductive exn : Set :=
| ZeroDivisionError
| OverflowError
| ValueError.

Inductive result (A : Type) : Type :=
| Ok (a : A)
| Raise (e : exn).

Arguments Ok {A} a.
Arguments Raise {A} e.

Definition ret {A : Type} (a : A) : result A := Ok a.

Definition bind {A B : Type} (c : result A) (k : A -> result B) : result B :=
  match c with
  | Ok a => k a
  | Raise e => Raise e
  end.


Definition div (a b : float) : result float :=
  if b =? 0 then Raise ZeroDivisionError else Ok (a / b).

Definition sqrt (a : float) : result float :=
  let r := PrimFloat.sqrt a in
  if is_nan r && negb (is_nan a) then Raise ValueError else Ok r.

Definition min (a b : float) : float := if b <? a then b else a.

End PyFloat.

Declare Scope pyfloat_scope.
Delimit Scope pyfloat_scope with pyfloat.
Notation "x <- c ;; k" := (PyFloat.bind c (fun x => k))
  (at level 61, c at next level, right associativity) : pyfloat_scope.

Section FloatModel.

Import PrimFloat.
Local Open Scope float_scope.
Local Open Scope pyfloat_scope.


End FloatModel.

(* ================================================================= *)
(** ** simulator.py: what [update_plot] draws *)

(** The numeric content of the axes after [update_plot]: the three line
    segments and four joints of the arm with the angles and the target of
    the two text boxes, or the out-of-reach message; and the axis limits.
    Colours, line widths and the formatting of the numbers in the text are
    left out. *)

Definition point : Type := R * R * R.

Record arm_drawing : Type := {
  base_link : point * point;
  upper_link : point * point;
  fore_link : point * point;
  joints : point * point * point * point;
  status_angles : R * R * R;
  target_coords : point
}.

Inductive drawing : Type :=
| Arm (a : arm_drawing)
| Out_of_reach.

Record axes : Type := {
  content : drawing;
  xlim : R * R;
  ylim : R * R;
  zlim : R * R
}.

(** [update_plot], for slider values [(x, y, z)] and
    [robot_params = (base, arm1, arm2)]. *)
Definition update_plot (x y z : R) (robot_params : R * R * R) : result axes :=
  let '(base, arm1, arm2) := robot_params in
  let max_reach := arm1 + arm2 in
  current_reach <- Py.sqrt (x ^ 2 + y ^ 2 + (z - base) ^ 2) ;;
  content <-
    (if leb current_reach max_reach then
       angles <- get_angles x y z base arm1 arm2 ;;
       let '(alpha_deg, beta_deg, gamma_deg) := angles in
       let alpha_rad := radians alpha_deg in
       joint2 <- get_point x y z base arm1 arm2 alpha_rad ;;
       let '(joint2_x, joint2_y, joint2_z) := joint2 in
       ret (Arm {| base_link := ((0, 0, 0), (0, 0, base));
                   upper_link := ((0, 0, base), (joint2_x, joint2_y, joint2_z));
                   fore_link := ((joint2_x, joint2_y, joint2_z), (x, y, z));
                   joints := ((0, 0, 0), (0, 0, base),
                              (joint2_x, joint2_y, joint2_z), (x, y, z));
                   status_angles := (alpha_deg, beta_deg, gamma_deg);
                   target_coords := (x, y, z) |})
     else ret Out_of_reach) ;;
  let max_dim := Py.max (Py.max base arm1) arm2 * (3 / 2) in
  ret {| content := content;
         xlim := (- max_dim, max_dim);
         ylim := (- max_dim, max_dim);
         zlim := (0, max_dim * (6 / 5)) |}.

(** The length of a drawn segment. *)
Definition link_length (l : point * point) : R := dist3 (fst l) (snd l).

(* ================================================================= *)
(** ** ssc32u.py: the SSC-32U servo controller *)

(** The class [SSC_32U].  A Python [str] is a [string] whose characters
    are code points below 256, an [int] is a [Z], [bytes] are a
    [list Byte.byte].  The serial port and the console are the [world]: the
    bytes that reached the wire and the lines printed.  What the
    environment decides during a call is an argument of the call: whether
    [serial.Serial(...)] and [serial.write] raise (and what a failed write
    had already sent), and the value of [time.time()].  [serial.close] and
    [print] are taken not to raise. *)

Module SSC_32U.

Local Open Scope string_scope.

(** [str(n)] for an [int], as the f-strings format it. *)
Definition str (n : Z) : string := NilZero.string_of_int (Z.to_int n).

(** The carriage return ['\r']. *)
Definition CR : string := String "013" EmptyString.

(** [s.endswith(suffix)]. *)
Definition endswith (s suffix : string) : bool :=
  let n := String.length s in
  let m := String.length suffix in
  (m <=? n)%nat && String.eqb (substring (n - m) m s) suffix.

(** The characters [str.strip()] removes: the white space below 256. *)
Definition isspace (c : ascii) : bool :=
  let n := nat_of_ascii c in
  ((9 <=? n) && (n <=? 13) || (28 <=? n) && (n <=? 32)
   || (n =? 133) || (n =? 160))%nat.

Fixpoint lstrip (s : string) : string :=
  match s with
  | EmptyString => EmptyString
  | String c s' => if isspace c then lstrip s' else s
  end.

Fixpoint rstrip (s : string) : string :=
  match s with
  | EmptyString => EmptyString
  | String c s' =>
      match rstrip s' with
      | EmptyString => if isspace c then EmptyString else String c EmptyString
      | r => String c r
      end
  end.

(** [s.strip()]. *)
Definition strip (s : string) : string := rstrip (lstrip s).

(** [s.encode()]: UTF-8, one byte below 128 and two bytes from 128. *)
Definition encode_char (c : ascii) : list Byte.byte :=
  let n := N_of_ascii c in
  if (n <? 128)%N then [byte_of_ascii c]
  else [byte_of_ascii (ascii_of_N (192 + n / 64));
        byte_of_ascii (ascii_of_N (128 + n mod 64))].

Fixpoint encode (s : string) : list Byte.byte :=
  match s with
  | EmptyString => []
  | String c s' => encode_char c ++ encode s'
  end.

(** An open [serial.Serial] object, with the settings it was opened with. *)
Record Serial : Type := {
  ser_port : string;
  ser_baudrate : Z;
  ser_timeout : Z
}.

(** The attributes of an [SSC_32U] instance. *)
Record t : Type := {
  port : string;
  baud_rate : Z;
  timeout : Z;
  serial : option Serial;
  connected : bool;
  last_command : option string;
  last_command_time : R;
  min_pwm : Z;
  max_pwm : Z
}.

Record world : Type := {
  wire : list Byte.byte;
  stdout : list string
}.

Definition print (line : string) (w : world) : world :=
  {| wire := wire w; stdout := stdout w ++ [line] |}.

(** What [serial.Serial(...)] does: it opens the port or raises. *)
Inductive open_outcome : Type :=
| Opened
| OpenError (msg : string).

(** What [serial.write] does: it sends all the bytes, or raises after
    having sent [sent]. *)
Inductive write_outcome : Type :=
| Written
| WriteError (sent : list Byte.byte) (msg : string).

Record env : Type := {
  write : write_outcome;
  clock : R
}.

(** The result of a method that can raise [ValueError]. *)
Inductive outcome (A : Type) : Type :=
| Return (a : A)
| ValueError (msg : string).

Arguments Return {A} a.
Arguments ValueError {A} msg.

(** [__init__(self, port, baud_rate, timeout)]. *)
Definition __init__ (port : string) (baud_rate timeout : Z) : t :=
  {| port := port;
     baud_rate := baud_rate;
     timeout := timeout;
     serial := None;
     connected := false;
     last_command := None;
     last_command_time := 0%R;
     min_pwm := 600;
     max_pwm := 2400 |}.

Definition set_link (self : t) (s : option Serial) (c : bool) : t :=
  {| port := port self;
     baud_rate := baud_rate self;
     timeout := timeout self;
     serial := s;
     connected := c;
     last_command := last_command self;
     last_command_time := last_command_time self;
     min_pwm := min_pwm self;
     max_pwm := max_pwm self |}.

Definition set_last (self : t) (command : string) (now : R) : t :=
  {| port := port self;
     baud_rate := baud_rate self;
     timeout := timeout self;
     serial := serial self;
     connected := connected self;
     last_command := Some command;
     last_command_time := now;
     min_pwm := min_pwm self;
     max_pwm := max_pwm self |}.

(** [connect(self)]. *)
Definition connect (o : open_outcome) (st : t * world) : t * world * bool :=
  let '(self, w) := st in
  match o with
  | Opened =>
      let s := {| ser_port := port self;
                  ser_baudrate := baud_rate self;
                  ser_timeout := timeout self |} in
      let w := print ("Connected to SSC_32U on " ++ port self) w in
      (set_link self (Some s) true, w, true)
  | OpenError e =>
      let w := print ("Warning: Could not connect to SSC_32U: " ++ e) w in
      let w := print "Continuing without SSC_32U control..." w in
      (set_link self None false, w, false)
  end.

(** [disconnect(self)]. *)
Definition disconnect (st : t * world) : t * world :=
  let '(self, w) := st in
  match serial self with
  | Some _ => (set_link self None false, print "Disconnected from SSC_32U" w)
  | None => (self, w)
  end.

(** [send_command(self, command)]. *)
Definition send_command (e : env) (command : string) (st : t * world)
  : t * world * bool :=
  let '(self, w) := st in
  match serial self with
  | None => (self, w, false)
  | Some _ =>
      let command := if endswith command CR then command else command ++ CR in
      match write e with
      | Written =>
          let w := {| wire := wire w ++ encode command; stdout := stdout w |} in
          let w := print ("Sent command: " ++ strip command) w in
          (set_last self command (clock e), w, true)
      | WriteError sent msg =>
          let w := {| wire := wire w ++ sent; stdout := stdout w |} in
          let w := print ("Error sending command: " ++ msg) w in
          (self, w, false)
      end
  end.

(** The optional [S<speed>] and [T<time>] of a command. *)
Definition with_speed (command : string) (speed : option Z) : string :=
  match speed with
  | Some spd => command ++ "S" ++ str spd
  | None => command
  end.

Definition with_time (command : string) (time : option Z) : string :=
  match time with
  | Some tm => command ++ "T" ++ str tm
  | None => command
  end.

(** [move_servo(self, channel, position, speed=None, time=None)]. *)
Definition move_servo (e : env) (channel position : Z) (speed time : option Z)
           (st : t * world) : outcome (t * world * bool) :=
  let '(self, w) := st in
  if ((channel <? 0) || (channel >? 31))%Z then
    ValueError "Channel must be between 0 and 31"
  else if ((position <? min_pwm self) || (position >? max_pwm self))%Z then
    ValueError ("Position must be between " ++ str (min_pwm self) ++ " & "
                ++ str (max_pwm self) ++ " ms")
  else
    let command := "#" ++ str channel ++ "P" ++ str position in
    let command := with_speed command speed in
    let command := with_time command time in
    Return (send_command e command (self, w)).

(** The loop of [move_multiple_servos]: check each pair and extend the
    command. *)
Fixpoint servo_commands (self : t) (positions : list (Z * Z))
         (command : string) : outcome string :=
  match positions with
  | [] => Return command
  | (channel, position) :: rest =>
      if ((channel <? 0) || (channel >? 31))%Z then
        ValueError "Channel must be between 0 and 31"
      else if ((position <? min_pwm self) || (position >? max_pwm self))%Z then
        ValueError ("Position must be between " ++ str (min_pwm self) ++ " & "
                    ++ str (max_pwm self))
      else
        servo_commands self rest (command ++ "#" ++ str channel ++ "P"
                                          ++ str position)
  end.

(** [move_multiple_servos(self, positions, speed=None, time=None)]. *)
Definition move_multiple_servos (e : env) (positions : list (Z * Z))
           (speed time : option Z) (st : t * world)
  : outcome (t * world * bool) :=
  let '(self, w) := st in
  if (32 <? List.length positions)%nat then
    ValueError "Cannot control more than 32 servos at once"
  else
    match servo_commands self positions "" with
    | ValueError msg => ValueError msg
    | Return command =>
        let command := with_speed command speed in
        let command := with_time command time in
        let w := print ("Command to send: " ++ command) w in
        Return (send_command e command (self, w))
    end.

(** A method call together with what the environment does during it, and
    the state it leaves ([ValueError] leaves the state as it was). *)
Inductive call : Type :=
| Connect (o : open_outcome)
| Disconnect
| Send_command (e : env) (command : string)
| Move_servo (e : env) (channel position : Z) (speed time : option Z)
| Move_multiple_servos (e : env) (positions : list (Z * Z))
                       (speed time : option Z).

Definition after {B : Type} (st : t * world) (r : outcome (t * world * B))
  : t * world :=
  match r with
  | Return (st', _) => st'
  | ValueError _ => st
  end.

Definition step (st : t * world) (c : call) : t * world :=
  match c with
  | Connect o => fst (connect o st)
  | Disconnect => disconnect st
  | Send_command e command => fst (send_command e command st)
  | Move_servo e channel position speed time =>
      after st (move_servo e channel position speed time st)
  | Move_multiple_servos e positions speed time =>
      after st (move_multiple_servos e positions speed time st)
  end.

Definition run (st : t * world) (calls : list call) : t * world :=
  fold_left step calls st.

End SSC_32U.

(** What the properties of the controller are stated with. *)

(** The last character of a string. *)
Fixpoint last_char (s : string) : option ascii :=
  match s with
  | EmptyString => None
  | String c s' =>
      match last_char s' with
      | None => Some c
      | r => r
      end
  end.

(** A string with no white space at either end. *)
Definition first_ok (s : string) : Prop :=
  match s with
  | EmptyString => True
  | String c _ => SSC_32U.isspace c = false
  end.

Definition last_ok (s : string) : Prop :=
  match last_char s with
  | None => True
  | Some c => SSC_32U.isspace c = false
  end.

Definition tidy (s : string) : Prop := first_ok s /\ last_ok s.

(** Decimal digits. *)
Definition isdigit (c : ascii) : bool :=
  ((48 <=? nat_of_ascii c) && (nat_of_ascii c <=? 57))%nat.

(** The arguments [move_servo] accepts. *)
Definition valid_move (self : SSC_32U.t) (channel position : Z) : Prop :=
  (0 <= channel <= 31)%Z /\
  (SSC_32U.min_pwm self <= position <= SSC_32U.max_pwm self)%Z.

(** The text [#<ch>P<pw>] of one servo, and of a list of servos. *)
Definition servo_command (channel position : Z) : string :=
  ("#" ++ SSC_32U.str channel ++ "P" ++ SSC_32U.str position)%string.

Fixpoint group_command (positions : list (Z * Z)) : string :=
  match positions with
  | [] => EmptyString
  | (channel, position) :: rest =>
      (servo_command channel position ++ group_command rest)%string
  end.

(** A controller made with the default arguments, before and after a
    successful [connect], with nothing sent or printed before. *)
Definition fresh_default : SSC_32U.t * SSC_32U.world :=
  (SSC_32U.__init__ "COM3" 9600 1,
   {| SSC_32U.wire := []; SSC_32U.stdout := [] |}).

Definition connected_default : SSC_32U.t * SSC_32U.world :=
  fst (SSC_32U.connect SSC_32U.Opened fresh_default).

(** What every call keeps true of an instance: the flag [connected] is
    set exactly when [serial] holds a port, and the last command, when
    there is one, ends with the carriage return. *)
Definition consistent (self : SSC_32U.t) : Prop :=
  (SSC_32U.connected self = true <-> SSC_32U.serial self <> None) /\
  (forall command, SSC_32U.last_command self = Some command ->
                   SSC_32U.endswith command SSC_32U.CR = true).

(** A call that opens the port. *)
Definition opens (c : SSC_32U.call) : bool :=
  match c with
  | SSC_32U.Connect SSC_32U.Opened => true
  | _ => false
  end.

(* ================================================================= *)
(** ** Facts about the primitives *)

Section Primitives.

Lemma eqb_spec (a b : R) : reflect (a = b) (eqb a b).
Proof. unfold eqb. destruct (Req_dec_T a b); constructor; assumption. Qed.

Lemma neb_spec (a b : R) : reflect (a <> b) (neb a b).
Proof.
  unfold neb. destruct (eqb_spec a b); constructor; [ tauto | assumption ].
Qed.

Lemma ltb_spec (a b : R) : reflect (a < b) (ltb a b).
Proof. unfold ltb. destruct (Rlt_dec a b); constructor; assumption. Qed.

Lemma leb_spec (a b : R) : reflect (a <= b) (leb a b).
Proof. unfold leb. destruct (Rle_dec a b); constructor; assumption. Qed.

Lemma eqb_refl (a : R) : eqb a a = true.
Proof. destruct (eqb_spec a a); [ reflexivity | contradiction ]. Qed.

Lemma eqb_neq (a b : R) : a <> b -> eqb a b = false.
Proof. intros H. destruct (eqb_spec a b); [ contradiction | reflexivity ]. Qed.

Lemma neb_neq (a b : R) : a <> b -> neb a b = true.
Proof. intros H. unfold neb. now rewrite eqb_neq. Qed.

Lemma neb_refl (a : R) : neb a a = false.
Proof. unfold neb. now rewrite eqb_refl. Qed.

Lemma ltb_lt (a b : R) : a < b -> ltb a b = true.
Proof. intros H. destruct (ltb_spec a b); [ reflexivity | contradiction ]. Qed.

Lemma ltb_ge (a b : R) : b <= a -> ltb a b = false.
Proof. intros H. destruct (ltb_spec a b); [ lra | reflexivity ]. Qed.

Lemma leb_le (a b : R) : a <= b -> leb a b = true.
Proof. intros H. destruct (leb_spec a b); [ reflexivity | contradiction ]. Qed.

Lemma leb_gt (a b : R) : b < a -> leb a b = false.
Proof. intros H. destruct (leb_spec a b); [ lra | reflexivity ]. Qed.

Lemma div_ok (a b : R) : b <> 0 -> Py.div a b = Ok (a / b).
Proof. intros H. unfold Py.div. now rewrite eqb_neq. Qed.

Lemma div_zero (a : R) : Py.div a 0 = Raise ZeroDivisionError.
Proof. unfold Py.div. now rewrite eqb_refl. Qed.

Lemma sqrt_ok (a : R) : 0 <= a -> Py.sqrt a = Ok (R_sqrt.sqrt a).
Proof. intros H. unfold Py.sqrt. now rewrite ltb_ge. Qed.

Lemma asin_ok (a : R) : -1 <= a <= 1 -> Py.asin a = Ok (Ratan.asin a).
Proof. intros [H1 H2]. unfold Py.asin. now rewrite !leb_le. Qed.

Lemma acos_ok (a : R) : -1 <= a <= 1 -> Py.acos a = Ok (Ratan.acos a).
Proof. intros [H1 H2]. unfold Py.acos. now rewrite !leb_le. Qed.

Lemma min_Rmin (a b : R) : Py.min a b = Rmin a b.
Proof.
  unfold Py.min, Rmin.
  destruct (ltb_spec b a), (Rle_dec a b); lra.
Qed.

Lemma max_Rmax (a b : R) : Py.max a b = Rmax a b.
Proof.
  unfold Py.max, Py.gtb, Rmax.
  destruct (ltb_spec a b), (Rle_dec a b); lra.
Qed.

(** The clamp [max(min(v, 1.0), -1.0)] lands in [[-1, 1]]. *)
Lemma clamp_range (v : R) : -1 <= Py.max (Py.min v 1) (-1) <= 1.
Proof.
  rewrite max_Rmax, min_Rmin. unfold Rmax, Rmin.
  destruct (Rle_dec v 1), (Rle_dec _ (-1)); lra.
Qed.

Lemma clamp_id (v : R) : -1 <= v <= 1 -> Py.max (Py.min v 1) (-1) = v.
Proof.
  intros H. rewrite max_Rmax, min_Rmin. unfold Rmax, Rmin.
  destruct (Rle_dec v 1), (Rle_dec _ (-1)); lra.
Qed.

Lemma clamp_low (v : R) : v <= -1 -> Py.max (Py.min v 1) (-1) = -1.
Proof.
  intros H. rewrite max_Rmax, min_Rmin. unfold Rmax, Rmin.
  destruct (Rle_dec v 1), (Rle_dec _ (-1)); lra.
Qed.

Lemma degrees_radians (a : R) : radians (degrees a) = a.
Proof.
  unfold radians, degrees. pose proof PI_RGT_0. field. lra.
Qed.

Lemma degrees_half_PI : degrees (PI / 2) = 90.
Proof. unfold degrees. pose proof PI_RGT_0. field. lra. Qed.

Lemma degrees_PI : degrees PI = 180.
Proof. unfold degrees. pose proof PI_RGT_0. field. lra. Qed.

Lemma atan2_pos (y x : R) : 0 < x -> atan2 y x = atan (y / x).
Proof. intros H. unfold atan2. now rewrite ltb_lt. Qed.

Lemma atan2_0_pos (x : R) : 0 < x -> atan2 0 x = 0.
Proof.
  intros H. rewrite atan2_pos by assumption.
  replace (0 / x) with 0 by (field; lra). apply atan_0.
Qed.

End Primitives.

(** Equality of two returned triples, component by component. *)
Ltac triple_eq :=
  apply f_equal; apply (f_equal2 pair); [ apply (f_equal2 pair) | ].

(* ================================================================= *)
(** ** [get_point]: the elbow position *)

Lemma pow2_pos (a : R) : a <> 0 -> 0 < a ^ 2.
Proof. intros H. destruct (Rtotal_order a 0) as [H0 | [H0 | H0]]; nra. Qed.

Section GetPoint.

Variables x y z base arm1 arm2 alpha_rad : R.

Let e := e_term x y z base arm1 arm2.
Let s := x_y_term x y alpha_rad.
Let t := tan alpha_rad.
Let c := elbow_c x y z base arm1 arm2 alpha_rad.

Lemma quad_a1_ge_1 : s <> 0 -> 1 <= quad_a1 x y z base alpha_rad.
Proof.
  intros Hs. unfold quad_a1, tan_term. fold s.
  assert (0 < s ^ 2) by (apply pow2_pos; assumption).
  assert (0 <= (z - base) ^ 2 * (1 + tan alpha_rad ^ 2)).
  { apply Rmult_le_pos; [ apply pow2_ge_0 | ].
    pose proof (pow2_ge_0 (tan alpha_rad)). lra. }
  assert (0 <= (z - base) ^ 2 * (1 + tan alpha_rad ^ 2) / s ^ 2).
  { apply Rmult_le_pos; [ assumption | ].
    apply Rlt_le, Rinv_0_lt_compat. assumption. }
  lra.
Qed.

Lemma off_axis_dist_pos :
  x <> 0 \/ y <> 0 -> 0 < x ^ 2 + y ^ 2 + (z - base) ^ 2.
Proof.
  intros H.
  pose proof (pow2_ge_0 x). pose proof (pow2_ge_0 y).
  pose proof (pow2_ge_0 (z - base)).
  destruct H as [H | H]; apply pow2_pos in H; lra.
Qed.

Lemma off_axis_test : x <> 0 \/ y <> 0 -> neb x 0 || neb y 0 = true.
Proof.
  intros [H | H]; rewrite (neb_neq _ _ H); [ reflexivity | apply orb_true_r ].
Qed.

(** In the branch [x_y_term != 0] no division or square root raises, and
    the result is the back-substitution of [elbow_c]. *)
Lemma get_point_quadratic :
  x <> 0 \/ y <> 0 -> s <> 0 ->
  get_point x y z base arm1 arm2 alpha_rad
  = Ok ((e - c * (z - base)) / s, (e - c * (z - base)) / s * t, c).
Proof.
  intros Hxy Hs.
  assert (Hs2 : s ^ 2 <> 0) by (apply pow_nonzero; assumption).
  pose proof (quad_a1_ge_1 Hs) as Ha1.
  pose proof (off_axis_dist_pos Hxy) as Hd.
  unfold get_point. rewrite (off_axis_test Hxy).
  unfold c, elbow_c, reach_dist, discriminant, quad_a1, quad_b1, quad_c1, t.
  unfold quad_a1 in Ha1.
  unfold e, s, e_term, x_y_term, tan_term in *.
  rewrite (eqb_neq _ _ Hs).
  rewrite !(div_ok _ _ Hs2). cbn [bind].
  match goal with
  | |- context [ltb ?d 0] => destruct (ltb_spec d 0) as [Hd0 | Hd0]
  end.
  - rewrite sqrt_ok by lra. cbn [bind].
    rewrite div_ok by (apply Rgt_not_eq, sqrt_lt_R0; assumption).
    cbn [bind ret]. rewrite div_ok by assumption. reflexivity.
  - rewrite sqrt_ok by lra. cbn [bind].
    rewrite div_ok by lra. cbn [bind].
    rewrite div_ok by assumption. reflexivity.
Qed.

End GetPoint.

Section GetPointBranches.

Variables x y z base arm1 arm2 alpha_rad : R.

(** The degenerate branch [x_y_term == 0]. *)
Lemma get_point_degenerate :
  x <> 0 \/ y <> 0 -> x_y_term x y alpha_rad = 0 ->
  get_point x y z base arm1 arm2 alpha_rad
  = Ok (0, 0, if neb z base
              then base + e_term x y z base arm1 arm2 / (z - base)
              else base + arm1).
Proof.
  intros Hxy Hs. unfold get_point. rewrite (off_axis_test _ _ Hxy).
  unfold x_y_term in Hs. rewrite Hs, eqb_refl.
  destruct (neb_spec z base) as [Hz | Hz].
  - rewrite div_ok by lra. reflexivity.
  - reflexivity.
Qed.

(** The branch of a target on the vertical axis. *)
Lemma get_point_axis :
  get_point 0 0 z base arm1 arm2 alpha_rad = Ok (0, 0, Py.min (base + arm1) z).
Proof. unfold get_point. rewrite neb_refl. reflexivity. Qed.

End GetPointBranches.

Lemma quadratic_root (a b c d : R) :
  a <> 0 -> d * d = b ^ 2 - 4 * a * c ->
  a * ((b + d) / (2 * a)) ^ 2 - b * ((b + d) / (2 * a)) + c = 0.
Proof.
  intros Ha Hd.
  replace (a * ((b + d) / (2 * a)) ^ 2 - b * ((b + d) / (2 * a)) + c)
    with ((d * d - (b ^ 2 - 4 * a * c)) / (4 * a)) by (field; assumption).
  rewrite Hd. field. assumption.
Qed.

(* ----------------------------------------------------------------- *)
(** *** The two sphere equations *)

(** Where the larger root of the quadratic is taken, the elbow
    [(a, a * tan alpha, c)] satisfies the equation of the sphere of radius
    [arm1] about the base joint (this is the quadratic) and that of the
    sphere of radius [arm2] about the target (by the plane relation
    [a * x_y_term + c * (z - base) = e] besides). *)
Lemma elbow_sphere_equations (x y z base arm1 arm2 alpha_rad : R) :
  x_y_term x y alpha_rad <> 0 ->
  0 <= discriminant x y z base arm1 arm2 alpha_rad ->
  let c := elbow_c x y z base arm1 arm2 alpha_rad in
  let a := (e_term x y z base arm1 arm2 - c * (z - base))
           / x_y_term x y alpha_rad in
  let b := a * tan alpha_rad in
  a ^ 2 + b ^ 2 + (c - base) ^ 2 = arm1 ^ 2 /\
  (a - x) ^ 2 + (b - y) ^ 2 + (c - z) ^ 2 = arm2 ^ 2.
Proof.
  intros Hs HD.
  pose proof (quad_a1_ge_1 x y z base alpha_rad Hs) as Ha1.
  assert (Hc : elbow_c x y z base arm1 arm2 alpha_rad
               = (quad_b1 x y z base arm1 arm2 alpha_rad
                  + R_sqrt.sqrt (discriminant x y z base arm1 arm2 alpha_rad))
                 / (2 * quad_a1 x y z base alpha_rad)).
  { unfold elbow_c. now rewrite ltb_ge by assumption. }
  assert (Hq : quad_a1 x y z base alpha_rad
               * elbow_c x y z base arm1 arm2 alpha_rad ^ 2
               - quad_b1 x y z base arm1 arm2 alpha_rad
                 * elbow_c x y z base arm1 arm2 alpha_rad
               + quad_c1 x y z base arm1 arm2 alpha_rad = 0).
  { rewrite Hc. apply quadratic_root; [ lra | ].
    rewrite sqrt_sqrt by assumption. reflexivity. }
  clear Hc. intros c. fold c in Hq.
  set (e := e_term x y z base arm1 arm2).
  set (s := x_y_term x y alpha_rad) in *.
  set (t := tan alpha_rad).
  intros a b.
  assert (Hplane : a * (x + y * t) = e - c * (z - base)).
  { unfold a, s, x_y_term, t. field. exact Hs. }
  assert (Hsphere : a ^ 2 + b ^ 2 + (c - base) ^ 2 = arm1 ^ 2).
  { apply Rminus_diag_uniq. rewrite <- Hq.
    unfold quad_a1, quad_b1, quad_c1, tan_term, b, a.
    fold e. fold s. fold t. field. assumption. }
  split; [ exact Hsphere | ].
  replace ((a - x) ^ 2 + (b - y) ^ 2 + (c - z) ^ 2)
    with (a ^ 2 + b ^ 2 + (c - base) ^ 2
          - 2 * (a * (x + y * t)) - 2 * c * (z - base)
          + (x ^ 2 + y ^ 2 + z ^ 2 - base ^ 2)) by (unfold b; ring).
  rewrite Hsphere, Hplane. unfold e, e_term. field.
Qed.

(** C1 (as amended). When neither degenerate branch nor the
    negative-discriminant fallback is taken ([x_y_term <> 0] and
    [0 <= discriminant]), [get_point] returns a point at distance [arm1]
    from the base joint [(0, 0, base)] and at distance [arm2] from the
    target, for every base angle. *)
Theorem get_point_distances (x y z base arm1 arm2 alpha_rad : R) :
  positive_geometry base arm1 arm2 ->
  x <> 0 \/ y <> 0 ->
  x_y_term x y alpha_rad <> 0 ->
  0 <= discriminant x y z base arm1 arm2 alpha_rad ->
  exists p,
    get_point x y z base arm1 arm2 alpha_rad = Ok p /\
    dist3 p (0, 0, base) = arm1 /\
    dist3 p (x, y, z) = arm2.
Proof.
  intros (_ & H1 & H2) Hxy Hs HD.
  rewrite (get_point_quadratic _ _ _ _ _ _ _ Hxy Hs).
  eexists. split; [ reflexivity | ].
  destruct (elbow_sphere_equations x y z base arm1 arm2 alpha_rad Hs HD)
    as [Hbase Htarget].
  unfold dist3. split.
  - match goal with
    | |- R_sqrt.sqrt ?u = _ => replace u with (arm1 ^ 2) by (rewrite <- Hbase; ring)
    end.
    apply sqrt_pow2. lra.
  - rewrite Htarget. apply sqrt_pow2. lra.
Qed.

Lemma get_point_distances_witness :
  exists p,
    get_point 150 0 150 100 204 165 0 = Ok p /\
    dist3 p (0, 0, 100) = 204 /\
    dist3 p (150, 0, 150) = 165.
Proof.
  apply (get_point_distances 150 0 150 100 204 165 0).
  - unfold positive_geometry. lra.
  - left. lra.
  - unfold x_y_term. rewrite tan_0. lra.
  - unfold discriminant, quad_a1, quad_b1, quad_c1, e_term, tan_term, x_y_term.
    rewrite tan_0. lra.
Defined.

(** The sphere equations fail inside the inner dead zone
    [d < |arm1 - arm2|]: the target [(10, 0, 100)] is at distance [10] from
    the base joint of the geometry [(100, 204, 165)], no degenerate branch
    is taken, and the returned elbow is [724.55] away from the base
    joint. *)
Lemma get_point_distances_fail_inner :
  positive_geometry 100 204 165 /\
  0 < reach_dist 10 0 100 100 < 204 + 165 /\
  x_y_term 10 0 (atan2 0 10) <> 0 /\
  get_point 10 0 100 100 204 165 (atan2 0 10) = Ok (14491 / 20, 0, 100) /\
  dist3 (14491 / 20, 0, 100) (0, 0, 100) - 204 > 500.
Proof.
  rewrite atan2_0_pos by lra.
  assert (Hs : x_y_term 10 0 0 <> 0) by (unfold x_y_term; rewrite tan_0; lra).
  assert (Hd : reach_dist 10 0 100 100 = 10).
  { unfold reach_dist.
    replace (10 ^ 2 + 0 ^ 2 + (100 - 100) ^ 2) with (10 ^ 2) by lra.
    apply sqrt_pow2. lra. }
  repeat split; try (unfold positive_geometry; lra); try (rewrite Hd; lra);
    try assumption.
  - rewrite get_point_quadratic by (assumption || (left; lra)).
    assert (Hc : elbow_c 10 0 100 100 204 165 0 = 100).
    { unfold elbow_c. rewrite Hd. rewrite ltb_lt; [ lra | ].
      unfold discriminant, quad_a1, quad_b1, quad_c1, e_term, tan_term, x_y_term.
      rewrite tan_0. lra. }
    rewrite Hc. unfold e_term, x_y_term. rewrite tan_0.
    triple_eq; field.
  - unfold dist3.
    replace ((14491 / 20 - 0) ^ 2 + (0 - 0) ^ 2 + (100 - 100) ^ 2)
      with ((14491 / 20) ^ 2) by lra.
    rewrite sqrt_pow2; lra.
Qed.

(* ----------------------------------------------------------------- *)
(** *** Totality and the plane of the elbow *)

(** Every branch returns: the result has the shape [(a, a * tan alpha, c)]. *)
Lemma get_point_shape (x y z base arm1 arm2 alpha_rad : R) :
  exists a c,
    get_point x y z base arm1 arm2 alpha_rad = Ok (a, a * tan alpha_rad, c).
Proof.
  destruct (Req_dec x 0) as [Hx | Hx]; [ destruct (Req_dec y 0) as [Hy | Hy] | ].
  - subst x y. exists 0, (Py.min (base + arm1) z).
    rewrite get_point_axis. now rewrite Rmult_0_l.
  - destruct (Req_dec (x_y_term x y alpha_rad) 0) as [Hs | Hs].
    + eexists 0, _. rewrite get_point_degenerate by auto.
      now rewrite Rmult_0_l.
    + eexists _, _. rewrite get_point_quadratic by auto. reflexivity.
  - destruct (Req_dec (x_y_term x y alpha_rad) 0) as [Hs | Hs].
    + eexists 0, _. rewrite get_point_degenerate by auto.
      now rewrite Rmult_0_l.
    + eexists _, _. rewrite get_point_quadratic by auto. reflexivity.
Qed.


Section FloatEdge.

Import PrimFloat.
Local Open Scope float_scope.


End FloatEdge.

(** C10. The returned elbow [(a, b, c)] lies in the vertical plane at the
    base angle: [b = a * tan alpha_rad], in every branch. *)
Theorem get_point_in_plane (x y z base arm1 arm2 alpha_rad : R) :
  exists a b c,
    get_point x y z base arm1 arm2 alpha_rad = Ok (a, b, c) /\
    b = a * tan alpha_rad.
Proof.
  destruct (get_point_shape x y z base arm1 arm2 alpha_rad) as (a & c & H).
  exists a, (a * tan alpha_rad), c. split; [ exact H | reflexivity ].
Qed.

(** C7. A target on the vertical axis: the elbow is
    [(0, 0, min(base + arm1, z))], which is never above the target. *)
Theorem get_point_on_axis (z base arm1 arm2 alpha_rad : R) :
  get_point 0 0 z base arm1 arm2 alpha_rad = Ok (0, 0, Rmin (base + arm1) z) /\
  Rmin (base + arm1) z <= z.
Proof.
  split.
  - rewrite get_point_axis, min_Rmin. reflexivity.
  - apply Rmin_r.
Qed.

(* ----------------------------------------------------------------- *)
(** *** The negative-discriminant fallback *)

(** C6 (as amended). With a negative discriminant only the height of the
    elbow is taken from the straight line to the target,
    [c = base + arm1 * (z - base) / d]; the other two coordinates are the
    back-substitution [a = (e - c * (z - base)) / x_y_term] and
    [b = a * tan alpha_rad]. *)
Theorem get_point_fallback (x y z base arm1 arm2 alpha_rad : R) :
  x <> 0 \/ y <> 0 ->
  x_y_term x y alpha_rad <> 0 ->
  discriminant x y z base arm1 arm2 alpha_rad < 0 ->
  let c := base + arm1 * (z - base) / reach_dist x y z base in
  let a := (e_term x y z base arm1 arm2 - c * (z - base))
           / x_y_term x y alpha_rad in
  get_point x y z base arm1 arm2 alpha_rad = Ok (a, a * tan alpha_rad, c).
Proof.
  intros Hxy Hs HD c a.
  rewrite get_point_quadratic by assumption.
  unfold a, c, elbow_c. now rewrite ltb_lt by assumption.
Qed.

Lemma get_point_fallback_witness :
  get_point 400 0 100 100 204 165 0
  = Ok ((e_term 400 0 100 100 204 165
         - (100 + 204 * (100 - 100) / reach_dist 400 0 100 100) * (100 - 100))
        / x_y_term 400 0 0,
        (e_term 400 0 100 100 204 165
         - (100 + 204 * (100 - 100) / reach_dist 400 0 100 100) * (100 - 100))
        / x_y_term 400 0 0 * tan 0,
        100 + 204 * (100 - 100) / reach_dist 400 0 100 100).
Proof.
  apply (get_point_fallback 400 0 100 100 204 165 0).
  - left. lra.
  - unfold x_y_term. rewrite tan_0. lra.
  - unfold discriminant, quad_a1, quad_b1, quad_c1, e_term, tan_term, x_y_term.
    rewrite tan_0. lra.
Defined.

(** The fallback does not put the elbow on the line from the base joint
    to the target: for the target [(400, 0, 100)] of the geometry
    [(100, 204, 165)] the point at distance [arm1] along that line is
    [(204, 0, 100)], and the returned elbow is [(217.98875, 0, 100)]. *)
Lemma get_point_fallback_off_line :
  (400 <> 0 \/ 0 <> 0) /\
  x_y_term 400 0 0 <> 0 /\
  discriminant 400 0 100 100 204 165 0 < 0 /\
  reach_dist 400 0 100 100 = 400 /\
  get_point 400 0 100 100 204 165 0 = Ok (174391 / 800, 0, 100) /\
  get_point 400 0 100 100 204 165 0
  <> Ok (204 * 400 / reach_dist 400 0 100 100,
         204 * 0 / reach_dist 400 0 100 100,
         100 + 204 * (100 - 100) / reach_dist 400 0 100 100).
Proof.
  assert (Hxy : 400 <> 0 \/ 0 <> 0) by (left; lra).
  assert (Hs : x_y_term 400 0 0 <> 0) by (unfold x_y_term; rewrite tan_0; lra).
  assert (HD : discriminant 400 0 100 100 204 165 0 < 0).
  { unfold discriminant, quad_a1, quad_b1, quad_c1, e_term, tan_term, x_y_term.
    rewrite tan_0. lra. }
  assert (Hd : reach_dist 400 0 100 100 = 400).
  { unfold reach_dist.
    replace (400 ^ 2 + 0 ^ 2 + (100 - 100) ^ 2) with (400 ^ 2) by lra.
    apply sqrt_pow2. lra. }
  assert (Hg : get_point 400 0 100 100 204 165 0 = Ok (174391 / 800, 0, 100)).
  { rewrite get_point_quadratic by assumption.
    unfold elbow_c. rewrite ltb_lt by assumption. rewrite Hd.
    unfold e_term, x_y_term. rewrite tan_0. triple_eq; field. }
  repeat split; try assumption.
  rewrite Hg, Hd. intros H. injection H as H. lra.
Qed.

(* ----------------------------------------------------------------- *)
(** *** Which targets have a non-negative discriminant *)

Lemma tan_shift_PI (a : R) : tan (a + PI) = tan a.
Proof.
  unfold tan. rewrite neg_sin, neg_cos.
  destruct (Req_dec (cos a) 0) as [H | H].
  - rewrite H. replace (- 0) with 0 by ring. unfold Rdiv.
    rewrite Rinv_0. ring.
  - field. assumption.
Qed.

Lemma tan_atan2 (y x : R) : x <> 0 -> tan (atan2 y x) = y / x.
Proof.
  intros Hx. unfold atan2.
  destruct (ltb_spec 0 x) as [Hp | Hp]; [ apply tan_atan | ].
  rewrite ltb_lt by lra.
  destruct (leb_spec 0 y).
  - rewrite tan_shift_PI. apply tan_atan.
  - rewrite <- (tan_shift_PI (atan (y / x) - PI)).
    replace (atan (y / x) - PI + PI) with (atan (y / x)) by ring.
    apply tan_atan.
Qed.

Lemma reach_dist_sqr (x y z base : R) :
  reach_dist x y z base ^ 2 = x ^ 2 + y ^ 2 + (z - base) ^ 2.
Proof.
  unfold reach_dist. apply pow2_sqrt.
  pose proof (pow2_ge_0 x). pose proof (pow2_ge_0 y).
  pose proof (pow2_ge_0 (z - base)). lra.
Qed.

Lemma reach_dist_nonneg (x y z base : R) : 0 <= reach_dist x y z base.
Proof. apply sqrt_pos. Qed.

(** With the base angle of the target, the discriminant is Heron's product
    for the triangle of sides [arm1], [arm2] and [d]. *)
Lemma discriminant_atan2 (x y z base arm1 arm2 : R) :
  x <> 0 ->
  let d := reach_dist x y z base in
  discriminant x y z base arm1 arm2 (atan2 y x) * (x ^ 2 + y ^ 2)
  = (arm1 + arm2 - d) * (d - arm1 + arm2) * (d + arm1 - arm2)
    * (d + arm1 + arm2).
Proof.
  intros Hx d.
  assert (Hr : x ^ 2 + y ^ 2 <> 0).
  { pose proof (pow2_pos x Hx). pose proof (pow2_ge_0 y). lra. }
  replace ((arm1 + arm2 - d) * (d - arm1 + arm2) * (d + arm1 - arm2)
           * (d + arm1 + arm2))
    with (4 * d ^ 2 * arm1 ^ 2 - (d ^ 2 + arm1 ^ 2 - arm2 ^ 2) ^ 2) by ring.
  unfold d. rewrite reach_dist_sqr.
  unfold discriminant, quad_a1, quad_b1, quad_c1, e_term, tan_term, x_y_term.
  rewrite tan_atan2 by assumption.
  field. split; [ assumption | ].
  replace (x * x + y * y) with (x ^ 2 + y ^ 2) by ring. assumption.
Qed.

(** The exact branch is taken precisely for the targets whose distance
    from the base joint is between [|arm1 - arm2|] and [arm1 + arm2]. *)
Lemma discriminant_reachable (x y z base arm1 arm2 : R) :
  0 < arm1 -> 0 < arm2 -> x <> 0 ->
  0 <= discriminant x y z base arm1 arm2 (atan2 y x)
  <-> Rabs (arm1 - arm2) <= reach_dist x y z base <= arm1 + arm2.
Proof.
  intros H1 H2 Hx.
  pose proof (discriminant_atan2 x y z base arm1 arm2 Hx) as HD. cbv zeta in HD.
  pose proof (reach_dist_nonneg x y z base) as Hd.
  set (d := reach_dist x y z base) in *.
  set (D := discriminant x y z base arm1 arm2 (atan2 y x)) in *.
  assert (Hr : 0 < x ^ 2 + y ^ 2).
  { pose proof (pow2_pos x Hx). pose proof (pow2_ge_0 y). lra. }
  set (r2 := x ^ 2 + y ^ 2) in *.
  assert (Hsum : 0 < d + arm1 + arm2) by lra.
  split.
  - intros HD0.
    assert (Hprod : 0 <= (arm1 + arm2 - d) * (d - arm1 + arm2)
                          * (d + arm1 - arm2) * (d + arm1 + arm2)).
    { rewrite <- HD. apply Rmult_le_pos; lra. }
    assert (Hu : 0 <= arm1 + arm2 - d).
    { destruct (Rle_dec 0 (arm1 + arm2 - d)) as [ | Hn ]; [ assumption | ].
      exfalso. apply Rnot_le_lt in Hn.
      assert (0 < (d - arm1 + arm2) * (d + arm1 - arm2) * (d + arm1 + arm2)).
      { repeat apply Rmult_lt_0_compat; lra. }
      nra. }
    assert (Hv : 0 <= d - arm1 + arm2).
    { destruct (Rle_dec 0 (d - arm1 + arm2)) as [ | Hn ]; [ assumption | ].
      exfalso. apply Rnot_le_lt in Hn.
      assert (0 < (arm1 + arm2 - d) * (d + arm1 - arm2) * (d + arm1 + arm2)).
      { repeat apply Rmult_lt_0_compat; lra. }
      nra. }
    assert (Hw : 0 <= d + arm1 - arm2).
    { destruct (Rle_dec 0 (d + arm1 - arm2)) as [ | Hn ]; [ assumption | ].
      exfalso. apply Rnot_le_lt in Hn.
      assert (0 < (arm1 + arm2 - d) * (d - arm1 + arm2) * (d + arm1 + arm2)).
      { repeat apply Rmult_lt_0_compat; lra. }
      nra. }
    split; [ | lra ].
    unfold Rabs. destruct (Rcase_abs (arm1 - arm2)); lra.
  - intros [Hlo Hhi].
    assert (0 <= d - arm1 + arm2 /\ 0 <= d + arm1 - arm2) as [Hv Hw].
    { unfold Rabs in Hlo. destruct (Rcase_abs (arm1 - arm2)); lra. }
    assert (Hprod : 0 <= (arm1 + arm2 - d) * (d - arm1 + arm2)
                          * (d + arm1 - arm2) * (d + arm1 + arm2)).
    { repeat apply Rmult_le_pos; lra. }
    rewrite <- HD in Hprod.
    destruct (Rle_dec 0 D) as [ | Hn ]; [ assumption | ].
    exfalso. apply Rnot_le_lt in Hn. nra.
Qed.

Lemma x_y_term_atan2 (x y : R) :
  x <> 0 -> x_y_term x y (atan2 y x) = (x ^ 2 + y ^ 2) / x.
Proof.
  intros Hx. unfold x_y_term. rewrite tan_atan2 by assumption.
  field. assumption.
Qed.

(** With the base angle of the target itself, the two sphere equations
    hold for every target off the plane [x = 0] whose distance from the
    base joint is between [|arm1 - arm2|] and [arm1 + arm2]. *)
Lemma get_point_distances_reachable (x y z base arm1 arm2 : R) :
  0 < arm1 -> 0 < arm2 -> x <> 0 ->
  Rabs (arm1 - arm2) <= reach_dist x y z base <= arm1 + arm2 ->
  exists p,
    get_point x y z base arm1 arm2 (atan2 y x) = Ok p /\
    dist3 p (0, 0, base) = arm1 /\
    dist3 p (x, y, z) = arm2.
Proof.
  intros H1 H2 Hx Hd.
  assert (Hs : x_y_term x y (atan2 y x) <> 0).
  { rewrite x_y_term_atan2 by assumption.
    pose proof (pow2_pos x Hx) as Hx2. pose proof (pow2_ge_0 y) as Hy2.
    intros Hzero. apply (Rmult_eq_compat_r x) in Hzero.
    replace ((x ^ 2 + y ^ 2) / x * x) with (x ^ 2 + y ^ 2) in Hzero
      by (field; assumption).
    lra. }
  assert (HD : 0 <= discriminant x y z base arm1 arm2 (atan2 y x))
    by now apply discriminant_reachable.
  rewrite get_point_quadratic by (assumption || now left).
  eexists. split; [ reflexivity | ].
  destruct (elbow_sphere_equations x y z base arm1 arm2 _ Hs HD)
    as [Hbase Htarget].
  unfold dist3. split.
  - match goal with
    | |- R_sqrt.sqrt ?u = _ => replace u with (arm1 ^ 2) by (rewrite <- Hbase; ring)
    end.
    apply sqrt_pow2. lra.
  - rewrite Htarget. apply sqrt_pow2. lra.
Qed.

(* ================================================================= *)
(** ** [get_angles]: the joint angles *)

Lemma sum_sqr_nonneg (x y z base : R) : 0 <= x ^ 2 + y ^ 2 + (z - base) ^ 2.
Proof.
  pose proof (pow2_ge_0 x). pose proof (pow2_ge_0 y).
  pose proof (pow2_ge_0 (z - base)). lra.
Qed.

Lemma reach_dist_pos (x y z base : R) :
  x <> 0 \/ y <> 0 \/ z <> base -> 0 < reach_dist x y z base.
Proof.
  intros H. apply sqrt_lt_R0.
  pose proof (pow2_ge_0 x). pose proof (pow2_ge_0 y).
  pose proof (pow2_ge_0 (z - base)).
  destruct H as [H | [H | H]].
  - apply pow2_pos in H. lra.
  - apply pow2_pos in H. lra.
  - assert (Hz : z - base <> 0) by lra. apply pow2_pos in Hz. lra.
Qed.

Lemma reach_dist_base_joint (base : R) : reach_dist 0 0 base base = 0.
Proof.
  unfold reach_dist.
  replace (0 ^ 2 + 0 ^ 2 + (base - base) ^ 2) with 0 by ring.
  apply sqrt_0.
Qed.

(** The height of the target over the base joint is at most [d]. *)
Lemma elevation_ratio_range (x y z base : R) :
  0 < reach_dist x y z base ->
  -1 <= (z - base) / reach_dist x y z base <= 1.
Proof.
  intros Hd. pose proof (reach_dist_sqr x y z base) as Hsq.
  set (d := reach_dist x y z base) in *.
  pose proof (pow2_ge_0 x). pose proof (pow2_ge_0 y).
  assert (Hle : (z - base) ^ 2 <= d ^ 2) by lra.
  assert (Hb : - d <= z - base <= d) by (split; nra).
  split.
  - apply Rmult_le_reg_r with d; [ assumption | ].
    replace ((z - base) / d * d) with (z - base) by (field; lra). lra.
  - apply Rmult_le_reg_r with d; [ assumption | ].
    replace ((z - base) / d * d) with (z - base) by (field; lra). lra.
Qed.

(** [get_angles] does not raise when the target is away from the base
    joint or the reach test succeeds, and returns the three angles in
    degrees. *)
Lemma get_angles_ok_gen (x y z base arm1 arm2 : R) :
  positive_geometry base arm1 arm2 ->
  0 < reach_dist x y z base
  \/ arm1 + arm2 - reach_eps < reach_dist x y z base ->
  get_angles x y z base arm1 arm2
  = Ok (degrees (base_angle x y),
        degrees (shoulder_angle x y z base arm1 arm2),
        degrees (elbow_angle x y z base arm1 arm2)).
Proof.
  intros (Hb & H1 & H2) Hd.
  unfold get_angles, shoulder_angle, elbow_angle, cos_theta2, cos_gamma.
  rewrite sqrt_ok by apply sum_sqr_nonneg. cbn [bind].
  fold (reach_dist x y z base).
  set (d := reach_dist x y z base) in *.
  assert (Hden : 2 * arm1 * arm2 <> 0) by nra.
  unfold gtb. destruct (ltb_spec (arm1 + arm2 - reach_eps) d) as [Hnear | Hnear].
  - rewrite sqrt_ok by (pose proof (pow2_ge_0 x); pose proof (pow2_ge_0 y); lra).
    cbn [bind ret]. rewrite div_ok by assumption. cbn [bind].
    rewrite acos_ok by apply clamp_range. reflexivity.
  - assert (Hpos : 0 < d) by (destruct Hd; [ assumption | contradiction ]).
    pose proof (elevation_ratio_range x y z base Hpos) as Hel. fold d in Hel.
    rewrite neb_neq by lra. rewrite div_ok by lra. cbn [bind].
    rewrite asin_ok by assumption. cbn [bind].
    rewrite div_ok by nra. cbn [bind].
    rewrite acos_ok by apply clamp_range. cbn [bind ret].
    rewrite div_ok by assumption. cbn [bind].
    rewrite acos_ok by apply clamp_range. reflexivity.
Qed.

Lemma get_angles_ok (x y z base arm1 arm2 : R) :
  positive_geometry base arm1 arm2 ->
  x <> 0 \/ y <> 0 \/ z <> base ->
  get_angles x y z base arm1 arm2
  = Ok (degrees (base_angle x y),
        degrees (shoulder_angle x y z base arm1 arm2),
        degrees (elbow_angle x y z base arm1 arm2)).
Proof.
  intros Hgeo Hne. apply get_angles_ok_gen; [ assumption | ].
  left. now apply reach_dist_pos.
Qed.

(** At the base joint itself ([d = 0]) the guard [d != 0] protects
    [theta1] only: the next line divides by [2 * arm1 * d]. *)
Lemma get_angles_at_base_joint (base arm1 arm2 : R) :
  reach_eps <= arm1 + arm2 ->
  get_angles 0 0 base base arm1 arm2 = Raise ZeroDivisionError.
Proof.
  intros Hreach. unfold get_angles.
  rewrite sqrt_ok by apply sum_sqr_nonneg. cbn [bind].
  fold (reach_dist 0 0 base base). rewrite reach_dist_base_joint.
  unfold gtb. rewrite ltb_ge by lra.
  rewrite neb_refl. cbn [bind ret].
  replace (2 * arm1 * 0) with 0 by ring.
  rewrite div_zero. reflexivity.
Qed.

(** C4. [get_angles] raises at the base joint: for the geometry
    [(100, 204, 165)] and the target [(0, 0, 100)], where [d = 0], the
    division by [2 * arm1 * d] raises [ZeroDivisionError]. *)
Theorem get_angles_raises_at_base_joint :
  get_angles 0 0 100 100 204 165 = Raise ZeroDivisionError.
Proof. apply get_angles_at_base_joint. unfold reach_eps. lra. Qed.

(* ----------------------------------------------------------------- *)
(** *** The base angle *)

(** Whatever [get_angles] returns, its first component is the base angle
    in degrees. *)
Lemma get_angles_base_inv (x y z base arm1 arm2 al be ga : R) :
  get_angles x y z base arm1 arm2 = Ok (al, be, ga) ->
  al = degrees (base_angle x y).
Proof.
  unfold get_angles.
  destruct (Py.sqrt (x ^ 2 + y ^ 2 + (z - base) ^ 2)) as [d | ];
    cbn [bind]; [ | discriminate ].
  match goal with
  | |- context [bind ?c _] => destruct c as [[th1 th2] | ]
  end; cbn [bind]; [ | discriminate ].
  destruct (Py.div _ _) as [cg | ]; cbn [bind]; [ | discriminate ].
  destruct (Py.acos _) as [g | ]; cbn [bind ret]; [ | discriminate ].
  intros H. injection H as H _ _. now symmetry.
Qed.

Lemma base_angle_off_axis (x y : R) : x <> 0 -> base_angle x y = atan2 y x.
Proof. intros H. unfold base_angle. now rewrite neb_neq. Qed.

Lemma base_angle_up (y : R) : 0 <= y -> base_angle 0 y = PI / 2.
Proof.
  intros H. unfold base_angle, geb. rewrite neb_refl. now rewrite leb_le.
Qed.

Lemma base_angle_down (y : R) : y < 0 -> base_angle 0 y = - PI / 2.
Proof.
  intros H. unfold base_angle, geb. rewrite neb_refl. now rewrite leb_gt.
Qed.

(** C8. The base angle returned by [get_angles] is [degrees(atan2(y, x))]
    when [x <> 0]; when [x = 0] it is [+90] for [y >= 0] and [-90] for
    [y < 0]. *)
Theorem get_angles_base_angle (x y z base arm1 arm2 al be ga : R) :
  get_angles x y z base arm1 arm2 = Ok (al, be, ga) ->
  (x <> 0 -> al = degrees (atan2 y x)) /\
  (x = 0 -> 0 <= y -> al = 90) /\
  (x = 0 -> y < 0 -> al = -90).
Proof.
  intros H. apply get_angles_base_inv in H. subst al.
  repeat split.
  - intros Hx. now rewrite base_angle_off_axis.
  - intros -> Hy. rewrite base_angle_up by assumption. apply degrees_half_PI.
  - intros -> Hy. rewrite base_angle_down by assumption.
    unfold degrees. pose proof PI_RGT_0. field. lra.
Qed.

Lemma get_angles_base_angle_witness :
  (150 <> 0 -> degrees (base_angle 150 0) = degrees (atan2 0 150)) /\
  (150 = 0 -> 0 <= 0 -> degrees (base_angle 150 0) = 90) /\
  (150 = 0 -> 0 < 0 -> degrees (base_angle 150 0) = -90).
Proof.
  apply (get_angles_base_angle 150 0 150 100 204 165 _
           (degrees (shoulder_angle 150 0 150 100 204 165))
           (degrees (elbow_angle 150 0 150 100 204 165))).
  apply get_angles_ok.
  - unfold positive_geometry. lra.
  - left. lra.
Defined.

(* ----------------------------------------------------------------- *)
(** *** Reflection through the vertical axis *)

Lemma reach_dist_reflect (x y z base : R) :
  reach_dist (- x) (- y) z base = reach_dist x y z base.
Proof. unfold reach_dist. f_equal. ring. Qed.

Lemma shoulder_angle_reflect (x y z base arm1 arm2 : R) :
  shoulder_angle (- x) (- y) z base arm1 arm2
  = shoulder_angle x y z base arm1 arm2.
Proof.
  unfold shoulder_angle. rewrite reach_dist_reflect.
  replace ((- x) ^ 2 + (- y) ^ 2) with (x ^ 2 + y ^ 2) by ring. reflexivity.
Qed.

Lemma elbow_angle_reflect (x y z base arm1 arm2 : R) :
  elbow_angle (- x) (- y) z base arm1 arm2 = elbow_angle x y z base arm1 arm2.
Proof. unfold elbow_angle. now rewrite reach_dist_reflect. Qed.

Lemma ratio_reflect (y x : R) : x <> 0 -> - y / - x = y / x.
Proof. intros H. field. assumption. Qed.

(** Off the vertical axis the base angles of a target and of its
    reflection are half a turn apart. *)
Lemma base_angle_reflect (x y : R) :
  x <> 0 \/ y <> 0 ->
  Rabs (base_angle x y - base_angle (- x) (- y)) = PI.
Proof.
  intros Hxy. pose proof PI_RGT_0 as Hpi.
  destruct (Rtotal_order x 0) as [Hx | [Hx | Hx]].
  - rewrite !base_angle_off_axis by lra. unfold atan2.
    rewrite (ltb_ge 0 x), (ltb_lt x 0), (ltb_lt 0 (- x)) by lra.
    rewrite ratio_reflect by lra.
    destruct (leb_spec 0 y).
    + replace (atan (y / x) + PI - atan (y / x)) with PI by ring.
      apply Rabs_pos_eq. lra.
    + replace (atan (y / x) - PI - atan (y / x)) with (- PI) by ring.
      rewrite Rabs_Ropp. apply Rabs_pos_eq. lra.
  - subst x. assert (Hy : y <> 0) by (destruct Hxy; lra).
    replace (- 0) with 0 by ring.
    destruct (Rtotal_order y 0) as [Hy0 | [Hy0 | Hy0]]; [ | contradiction | ].
    + rewrite base_angle_down, base_angle_up by lra.
      replace (- PI / 2 - PI / 2) with (- PI) by field.
      rewrite Rabs_Ropp. apply Rabs_pos_eq. lra.
    + rewrite base_angle_up, base_angle_down by lra.
      replace (PI / 2 - - PI / 2) with PI by field.
      apply Rabs_pos_eq. lra.
  - rewrite !base_angle_off_axis by lra. unfold atan2.
    rewrite (ltb_lt 0 x), (ltb_ge 0 (- x)), (ltb_lt (- x) 0) by lra.
    rewrite ratio_reflect by lra.
    destruct (leb_spec 0 (- y)).
    + replace (atan (y / x) - (atan (y / x) + PI)) with (- PI) by ring.
      rewrite Rabs_Ropp. apply Rabs_pos_eq. lra.
    + replace (atan (y / x) - (atan (y / x) - PI)) with PI by ring.
      apply Rabs_pos_eq. lra.
Qed.

Lemma degrees_minus (a b : R) : degrees a - degrees b = degrees (a - b).
Proof. unfold degrees. ring. Qed.

Lemma Rabs_degrees (a : R) : Rabs (degrees a) = degrees (Rabs a).
Proof.
  unfold degrees. rewrite Rabs_mult. f_equal.
  apply Rabs_pos_eq. pose proof PI_RGT_0.
  apply Rlt_le, Rdiv_lt_0_compat; lra.
Qed.

(** C9 (as amended). For a target off the vertical axis, [get_angles] at
    [(x, y, z)] and at [(-x, -y, z)] returns base angles exactly 180
    degrees apart and the same shoulder and elbow angles. *)
Theorem get_angles_reflection (x y z base arm1 arm2 : R) :
  positive_geometry base arm1 arm2 ->
  x <> 0 \/ y <> 0 ->
  exists al al' be ga,
    get_angles x y z base arm1 arm2 = Ok (al, be, ga) /\
    get_angles (- x) (- y) z base arm1 arm2 = Ok (al', be, ga) /\
    Rabs (al - al') = 180.
Proof.
  intros Hgeo Hxy.
  exists (degrees (base_angle x y)), (degrees (base_angle (- x) (- y))),
    (degrees (shoulder_angle x y z base arm1 arm2)),
    (degrees (elbow_angle x y z base arm1 arm2)).
  split; [ | split ].
  - apply get_angles_ok; tauto.
  - rewrite <- shoulder_angle_reflect, <- elbow_angle_reflect.
    apply get_angles_ok; [ assumption | ].
    destruct Hxy; [ left | right; left ]; lra.
  - rewrite degrees_minus, Rabs_degrees, base_angle_reflect by assumption.
    apply degrees_PI.
Qed.

Lemma get_angles_reflection_witness :
  exists al al' be ga,
    get_angles 150 0 150 100 204 165 = Ok (al, be, ga) /\
    get_angles (- 150) (- 0) 150 100 204 165 = Ok (al', be, ga) /\
    Rabs (al - al') = 180.
Proof.
  apply (get_angles_reflection 150 0 150 100 204 165).
  - unfold positive_geometry. lra.
  - left. lra.
Defined.

(** On the vertical axis the reflection is the target itself: for
    [(0, 0, 250)] both calls return the base angle 90. *)
Lemma get_angles_reflection_on_axis :
  positive_geometry 100 204 165 /\
  exists be ga,
    get_angles 0 0 250 100 204 165 = Ok (90, be, ga) /\
    get_angles (- 0) (- 0) 250 100 204 165 = Ok (90, be, ga) /\
    Rabs (90 - 90) <> 180.
Proof.
  split; [ unfold positive_geometry; lra | ].
  exists (degrees (shoulder_angle 0 0 250 100 204 165)),
    (degrees (elbow_angle 0 0 250 100 204 165)).
  assert (H : get_angles 0 0 250 100 204 165
              = Ok (90, degrees (shoulder_angle 0 0 250 100 204 165),
                    degrees (elbow_angle 0 0 250 100 204 165))).
  { rewrite get_angles_ok.
    - rewrite base_angle_up by lra. now rewrite degrees_half_PI.
    - unfold positive_geometry. lra.
    - right. right. lra. }
  split; [ exact H | split ].
  - replace (- 0) with 0 by ring. exact H.
  - replace (90 - 90) with 0 by ring. rewrite Rabs_R0. lra.
Qed.

(* ----------------------------------------------------------------- *)
(** *** At and beyond maximum reach *)

Lemma shoulder_angle_near_reach (x y z base arm1 arm2 : R) :
  arm1 + arm2 - reach_eps < reach_dist x y z base ->
  shoulder_angle x y z base arm1 arm2
  = atan2 (z - base) (R_sqrt.sqrt (x ^ 2 + y ^ 2)).
Proof.
  intros H. unfold shoulder_angle, gtb. rewrite ltb_lt by assumption. ring.
Qed.

Lemma acos_m1 : Ratan.acos (-1) = PI.
Proof.
  unfold Ratan.acos. destruct (Rle_dec (-1) (-1)); [ reflexivity | lra ].
Qed.

(** At or beyond maximum reach the clamp takes [cos_gamma] to [-1]: the
    elbow angle, the angle between the two links, is a straight angle. *)
Lemma elbow_angle_beyond_reach (x y z base arm1 arm2 : R) :
  0 < arm1 -> 0 < arm2 ->
  arm1 + arm2 <= reach_dist x y z base ->
  elbow_angle x y z base arm1 arm2 = PI.
Proof.
  intros H1 H2 Hd. unfold elbow_angle, clamp.
  set (d := reach_dist x y z base) in *.
  rewrite clamp_low; [ apply acos_m1 | ].
  unfold cos_gamma.
  apply Rmult_le_reg_r with (2 * arm1 * arm2); [ nra | ].
  replace ((arm1 ^ 2 + arm2 ^ 2 - d ^ 2) / (2 * arm1 * arm2) * (2 * arm1 * arm2))
    with (arm1 ^ 2 + arm2 ^ 2 - d ^ 2) by (field; lra).
  nra.
Qed.

(** C3 (as amended). When [d > arm1 + arm2 - 0.001] the shoulder angle is
    [degrees(atan2(z - base, sqrt(x**2 + y**2)))]; the elbow angle is the
    angle between the links, the arc cosine of the clamped [cos_gamma], so
    at [d >= arm1 + arm2] it is 180 degrees. *)
Theorem get_angles_near_reach (x y z base arm1 arm2 : R) :
  positive_geometry base arm1 arm2 ->
  arm1 + arm2 - reach_eps < reach_dist x y z base ->
  exists al,
    get_angles x y z base arm1 arm2
    = Ok (al,
          degrees (atan2 (z - base) (R_sqrt.sqrt (x ^ 2 + y ^ 2))),
          degrees (Ratan.acos
                     (clamp (cos_gamma (reach_dist x y z base) arm1 arm2)))) /\
    (arm1 + arm2 <= reach_dist x y z base ->
     degrees (Ratan.acos (clamp (cos_gamma (reach_dist x y z base) arm1 arm2)))
     = 180).
Proof.
  intros Hgeo Hd.
  exists (degrees (base_angle x y)).
  fold (elbow_angle x y z base arm1 arm2).
  split.
  - rewrite get_angles_ok_gen by tauto.
    now rewrite shoulder_angle_near_reach.
  - intros Hfull. destruct Hgeo as (_ & H1 & H2).
    rewrite elbow_angle_beyond_reach by assumption. apply degrees_PI.
Qed.

Lemma reach_dist_along_x (x base : R) : 0 <= x -> reach_dist x 0 base base = x.
Proof.
  intros H. unfold reach_dist.
  replace (x ^ 2 + 0 ^ 2 + (base - base) ^ 2) with (x ^ 2) by ring.
  now apply sqrt_pow2.
Qed.

Lemma get_angles_near_reach_witness :
  exists al,
    get_angles 400 0 100 100 204 165
    = Ok (al,
          degrees (atan2 (100 - 100) (R_sqrt.sqrt (400 ^ 2 + 0 ^ 2))),
          degrees (Ratan.acos
                     (clamp (cos_gamma (reach_dist 400 0 100 100) 204 165)))) /\
    (204 + 165 <= reach_dist 400 0 100 100 ->
     degrees (Ratan.acos (clamp (cos_gamma (reach_dist 400 0 100 100) 204 165)))
     = 180).
Proof.
  apply (get_angles_near_reach 400 0 100 100 204 165).
  - unfold positive_geometry. lra.
  - rewrite reach_dist_along_x by lra. unfold reach_eps. lra.
Defined.

(** The fully extended arm of the geometry [(100, 204, 165)], reaching
    horizontally to [(369, 0, 100)]. *)
Lemma get_angles_full_extension :
  get_angles 369 0 100 100 204 165 = Ok (0, 0, 180).
Proof.
  assert (Hd : reach_dist 369 0 100 100 = 369) by (apply reach_dist_along_x; lra).
  rewrite get_angles_ok by (unfold positive_geometry; lra).
  rewrite base_angle_off_axis by lra.
  rewrite shoulder_angle_near_reach by (rewrite Hd; unfold reach_eps; lra).
  rewrite elbow_angle_beyond_reach by (rewrite ?Hd; lra).
  replace (369 ^ 2 + 0 ^ 2) with (369 ^ 2) by ring.
  rewrite sqrt_pow2 by lra.
  replace (100 - 100) with 0 by ring.
  rewrite !atan2_0_pos by lra.
  rewrite degrees_PI. unfold degrees. now rewrite Rmult_0_l.
Qed.

(** At maximum reach the returned elbow angle is 180 degrees, not 0: the
    target [(369, 0, 100)] has [d = 369 = arm1 + arm2]. *)
Lemma get_angles_elbow_not_zero_at_reach :
  positive_geometry 100 204 165 /\
  reach_dist 369 0 100 100 >= 204 + 165 - 1 / 1000 /\
  exists al be ga,
    get_angles 369 0 100 100 204 165 = Ok (al, be, ga) /\ ga = 180 /\ ga <> 0.
Proof.
  split; [ unfold positive_geometry; lra | split ].
  - rewrite reach_dist_along_x by lra. lra.
  - exists 0, 0, 180. split; [ apply get_angles_full_extension | lra ].
Qed.

(* ================================================================= *)
(** ** Forward kinematics of the returned angles *)

(* ----------------------------------------------------------------- *)
(** *** Polar coordinates of [atan2] *)

Lemma sqrt_1_sqr_pos (q : R) : 0 < R_sqrt.sqrt (1 + q²).
Proof. apply sqrt_lt_R0. pose proof (Rle_0_sqr q). lra. Qed.

Lemma hypot_scale (x y k : R) :
  0 <= x * k -> x <> 0 -> k * k = 1 + (y / x)² ->
  R_sqrt.sqrt (x ^ 2 + y ^ 2) = x * k.
Proof.
  intros Hk Hx Hsq. apply sqrt_lem_1.
  - pose proof (pow2_ge_0 x). pose proof (pow2_ge_0 y). lra.
  - assumption.
  - replace (x * k * (x * k)) with (x ^ 2 * (k * k)) by ring.
    rewrite Hsq. unfold Rsqr. field. assumption.
Qed.

Lemma shift_minus_PI (a : R) :
  cos (a - PI) = - cos a /\ sin (a - PI) = - sin a.
Proof.
  rewrite cos_minus, sin_minus, cos_PI, sin_PI. split; ring.
Qed.

(** [atan2(y, x)] is the angle of the point [(x, y)]. *)
Lemma atan2_polar (y x : R) :
  x <> 0 \/ y <> 0 ->
  R_sqrt.sqrt (x ^ 2 + y ^ 2) * cos (atan2 y x) = x /\
  R_sqrt.sqrt (x ^ 2 + y ^ 2) * sin (atan2 y x) = y.
Proof.
  intros Hxy.
  pose proof (sqrt_1_sqr_pos (y / x)) as Hk.
  assert (Hkk : R_sqrt.sqrt (1 + (y / x)²) * R_sqrt.sqrt (1 + (y / x)²)
                = 1 + (y / x)²).
  { apply sqrt_sqrt. pose proof (Rle_0_sqr (y / x)). lra. }
  unfold atan2.
  destruct (ltb_spec 0 x) as [Hp | Hp].
  - rewrite (hypot_scale x y (R_sqrt.sqrt (1 + (y / x)²))); try lra; try nra.
    rewrite cos_atan, sin_atan. split; field; lra.
  - destruct (ltb_spec x 0) as [Hn | Hn].
    + replace (x ^ 2 + y ^ 2) with ((- x) ^ 2 + (- y) ^ 2) by ring.
      rewrite (hypot_scale (- x) (- y) (R_sqrt.sqrt (1 + (y / x)²)));
        try lra; try nra.
      * destruct (leb_spec 0 y).
        -- rewrite neg_cos, neg_sin, cos_atan, sin_atan. split; field; lra.
        -- destruct (shift_minus_PI (atan (y / x))) as [-> ->].
           rewrite cos_atan, sin_atan. split; field; lra.
      * rewrite Hkk. f_equal. f_equal. field. lra.
    + assert (Hx : x = 0) by lra. subst x.
      assert (Hy : y <> 0) by (destruct Hxy; [ contradiction | assumption ]).
      replace (0 ^ 2 + y ^ 2) with (y ^ 2) by ring.
      destruct (ltb_spec 0 y) as [Hy0 | Hy0].
      * rewrite sqrt_pow2 by lra. rewrite cos_PI2, sin_PI2. split; ring.
      * rewrite ltb_lt by lra.
        replace (y ^ 2) with ((- y) ^ 2) by ring.
        rewrite sqrt_pow2 by lra.
        rewrite cos_neg, sin_neg, cos_PI2, sin_PI2. split; ring.
Qed.

(** The base angle of [get_angles] points at [(x, y)], on the vertical
    axis too (where the horizontal distance is zero). *)
Lemma base_angle_polar (x y : R) :
  R_sqrt.sqrt (x ^ 2 + y ^ 2) * cos (base_angle x y) = x /\
  R_sqrt.sqrt (x ^ 2 + y ^ 2) * sin (base_angle x y) = y.
Proof.
  destruct (Req_dec x 0) as [Hx | Hx].
  - subst x. replace (0 ^ 2 + y ^ 2) with (y ^ 2) by ring.
    destruct (Rle_dec 0 y) as [Hy | Hy].
    + rewrite base_angle_up by assumption.
      rewrite sqrt_pow2 by assumption. rewrite cos_PI2, sin_PI2. split; ring.
    + rewrite base_angle_down by lra.
      replace (- PI / 2) with (- (PI / 2)) by field.
      replace (y ^ 2) with ((- y) ^ 2) by ring.
      rewrite sqrt_pow2 by lra.
      rewrite cos_neg, sin_neg, cos_PI2, sin_PI2. split; ring.
  - rewrite base_angle_off_axis by assumption. apply atan2_polar. now left.
Qed.

(* ----------------------------------------------------------------- *)
(** *** The triangle of the two links *)

Section Triangle.

Variables arm1 arm2 d : R.
Hypothesis Harm1 : 0 < arm1.
Hypothesis Harm2 : 0 < arm2.
Hypothesis Hd : 0 < d.
Hypothesis Hlow : Rabs (arm1 - arm2) <= d.
Hypothesis Hhigh : d <= arm1 + arm2.

Lemma triangle_sides : arm1 - arm2 <= d /\ arm2 - arm1 <= d.
Proof.
  unfold Rabs in Hlow. destruct (Rcase_abs (arm1 - arm2)); lra.
Qed.

Lemma cos_theta2_range : -1 <= cos_theta2 d arm1 arm2 <= 1.
Proof.
  destruct triangle_sides as [Ha Hb]. unfold cos_theta2.
  assert (Hden : 0 < 2 * arm1 * d) by nra.
  split.
  - apply Rmult_le_reg_r with (2 * arm1 * d); [ assumption | ].
    replace ((arm1 ^ 2 + d ^ 2 - arm2 ^ 2) / (2 * arm1 * d) * (2 * arm1 * d))
      with (arm1 ^ 2 + d ^ 2 - arm2 ^ 2) by (field; lra).
    nra.
  - apply Rmult_le_reg_r with (2 * arm1 * d); [ assumption | ].
    replace ((arm1 ^ 2 + d ^ 2 - arm2 ^ 2) / (2 * arm1 * d) * (2 * arm1 * d))
      with (arm1 ^ 2 + d ^ 2 - arm2 ^ 2) by (field; lra).
    nra.
Qed.

Lemma cos_gamma_range : -1 <= cos_gamma d arm1 arm2 <= 1.
Proof.
  destruct triangle_sides as [Ha Hb]. unfold cos_gamma.
  assert (Hden : 0 < 2 * arm1 * arm2) by nra.
  split.
  - apply Rmult_le_reg_r with (2 * arm1 * arm2); [ assumption | ].
    replace ((arm1 ^ 2 + arm2 ^ 2 - d ^ 2) / (2 * arm1 * arm2)
             * (2 * arm1 * arm2))
      with (arm1 ^ 2 + arm2 ^ 2 - d ^ 2) by (field; lra).
    nra.
  - apply Rmult_le_reg_r with (2 * arm1 * arm2); [ assumption | ].
    replace ((arm1 ^ 2 + arm2 ^ 2 - d ^ 2) / (2 * arm1 * arm2)
             * (2 * arm1 * arm2))
      with (arm1 ^ 2 + arm2 ^ 2 - d ^ 2) by (field; lra).
    nra.
Qed.

(** Law of sines: [d * sin theta2 = arm2 * sin gamma]. *)
Lemma law_of_sines :
  d * R_sqrt.sqrt (1 - (cos_theta2 d arm1 arm2)²)
  = arm2 * R_sqrt.sqrt (1 - (cos_gamma d arm1 arm2)²).
Proof.
  pose proof cos_theta2_range as H2. pose proof cos_gamma_range as Hg.
  assert (H2n : 0 <= 1 - (cos_theta2 d arm1 arm2)²) by (unfold Rsqr; nra).
  assert (Hgn : 0 <= 1 - (cos_gamma d arm1 arm2)²) by (unfold Rsqr; nra).
  rewrite <- (sqrt_pow2 d) at 1 by lra.
  rewrite <- (sqrt_pow2 arm2) at 2 by lra.
  rewrite <- !sqrt_mult by (assumption || apply pow2_ge_0).
  f_equal. unfold cos_theta2, cos_gamma, Rsqr. field. lra.
Qed.

(** The forearm closes the triangle: seen from the line to the target,
    the upper arm at [theta2] followed by the forearm, turned by the
    interior angle [gamma], ends at distance [d] on that line. *)
Lemma two_link_closure :
  let theta2 := Ratan.acos (cos_theta2 d arm1 arm2) in
  let gamma := Ratan.acos (cos_gamma d arm1 arm2) in
  arm1 * cos theta2 - arm2 * cos (theta2 + gamma) = d /\
  arm1 * sin theta2 - arm2 * sin (theta2 + gamma) = 0.
Proof.
  intros theta2 gamma.
  pose proof cos_theta2_range as H2. pose proof cos_gamma_range as Hg.
  pose proof law_of_sines as Hsin.
  assert (H2n : 0 <= 1 - (cos_theta2 d arm1 arm2)²) by (unfold Rsqr; nra).
  pose proof (sqrt_sqrt _ H2n) as Hs2.
  assert (Hproj : arm1 - arm2 * cos_gamma d arm1 arm2
                  = d * cos_theta2 d arm1 arm2).
  { unfold cos_gamma, cos_theta2. field. lra. }
  rewrite cos_plus, sin_plus. unfold theta2, gamma.
  rewrite !cos_acos, !sin_acos by assumption.
  set (c2 := cos_theta2 d arm1 arm2) in *.
  set (cg := cos_gamma d arm1 arm2) in *.
  set (s2 := R_sqrt.sqrt (1 - c2²)) in *.
  set (sg := R_sqrt.sqrt (1 - cg²)) in *.
  unfold Rsqr in Hs2.
  split.
  - replace (arm1 * c2 - arm2 * (c2 * cg - s2 * sg))
      with (c2 * (arm1 - arm2 * cg) + s2 * (arm2 * sg)) by ring.
    rewrite Hproj, <- Hsin.
    replace (c2 * (d * c2) + s2 * (d * s2)) with (d * (c2 * c2 + s2 * s2))
      by ring.
    rewrite Hs2. ring.
  - replace (arm1 * s2 - arm2 * (s2 * cg + c2 * sg))
      with (s2 * (arm1 - arm2 * cg) - c2 * (arm2 * sg)) by ring.
    rewrite Hproj, <- Hsin. ring.
Qed.

End Triangle.

(* ----------------------------------------------------------------- *)
(** *** Round trip *)

(** The elevation [theta1 = asin((z - base) / d)] of the target. *)
Lemma elevation_polar (x y z base : R) :
  let d := reach_dist x y z base in
  0 < d ->
  d * cos (Ratan.asin ((z - base) / d)) = R_sqrt.sqrt (x ^ 2 + y ^ 2) /\
  d * sin (Ratan.asin ((z - base) / d)) = z - base.
Proof.
  intros d Hd.
  pose proof (elevation_ratio_range x y z base Hd) as Hel.
  pose proof (reach_dist_sqr x y z base) as Hsq. fold d in Hel, Hsq.
  rewrite cos_asin, sin_asin by assumption. split.
  - rewrite <- (sqrt_pow2 d) at 1 by lra.
    rewrite <- sqrt_mult; [ | apply pow2_ge_0 | unfold Rsqr; nra ].
    f_equal. unfold Rsqr.
    replace (d ^ 2 * (1 - (z - base) / d * ((z - base) / d)))
      with (d ^ 2 - (z - base) ^ 2) by (field; lra).
    lra.
  - field. lra.
Qed.

Lemma radians_interior (b g : R) :
  radians (degrees b + degrees g - 180) = b + g - PI.
Proof. unfold radians, degrees. pose proof PI_RGT_0. field. lra. Qed.

(** Forward kinematics, interior-angle reading, on angles given in
    radians. *)
Lemma forward_interior_radians (base arm1 arm2 al be ga : R) :
  forward_interior base arm1 arm2 (degrees al, degrees be, degrees ga)
  = ((arm1 * cos be - arm2 * cos (be + ga)) * cos al,
     (arm1 * cos be - arm2 * cos (be + ga)) * sin al,
     base + (arm1 * sin be - arm2 * sin (be + ga))).
Proof.
  unfold forward_interior, forward.
  rewrite !degrees_radians, radians_interior.
  destruct (shift_minus_PI (be + ga)) as [-> ->].
  apply (f_equal2 pair); [ apply (f_equal2 pair) | ]; ring.
Qed.

(** C2 (as amended). With the elbow angle read as the interior angle
    between the links (forearm at shoulder + elbow - 180 degrees), forward
    kinematics of the angles returned by [get_angles] gives back the
    target, for every target in the law-of-cosines branch whose distance
    is at least [|arm1 - arm2|], and at full extension [d = arm1 + arm2]. *)
Theorem forward_interior_roundtrip (x y z base arm1 arm2 : R) :
  positive_geometry base arm1 arm2 ->
  0 < reach_dist x y z base ->
  Rabs (arm1 - arm2) <= reach_dist x y z base ->
  reach_dist x y z base <= arm1 + arm2 - reach_eps
  \/ reach_dist x y z base = arm1 + arm2 ->
  exists angles,
    get_angles x y z base arm1 arm2 = Ok angles /\
    forward_interior base arm1 arm2 angles = (x, y, z).
Proof.
  intros Hgeo Hd Hlow Hhigh.
  eexists. split; [ apply get_angles_ok_gen; tauto | ].
  destruct Hgeo as (_ & H1 & H2).
  rewrite forward_interior_radians.
  destruct (base_angle_polar x y) as [Hx Hy].
  set (r := R_sqrt.sqrt (x ^ 2 + y ^ 2)) in *.
  assert (Hplanar :
            arm1 * cos (shoulder_angle x y z base arm1 arm2)
            - arm2 * cos (shoulder_angle x y z base arm1 arm2
                          + elbow_angle x y z base arm1 arm2) = r /\
            arm1 * sin (shoulder_angle x y z base arm1 arm2)
            - arm2 * sin (shoulder_angle x y z base arm1 arm2
                          + elbow_angle x y z base arm1 arm2) = z - base).
  { destruct Hhigh as [Hhigh | Hfull].
    - (* law of cosines *)
      assert (Hle : reach_dist x y z base <= arm1 + arm2)
        by (unfold reach_eps in Hhigh; lra).
      destruct (elevation_polar x y z base Hd) as [Hc1 Hs1]. fold r in Hc1.
      destruct (two_link_closure arm1 arm2 _ H1 H2 Hd Hlow Hle) as [Hu Hv].
      assert (Hr2 : -1 <= cos_theta2 (reach_dist x y z base) arm1 arm2 <= 1)
        by (apply cos_theta2_range; assumption).
      assert (Hrg : -1 <= cos_gamma (reach_dist x y z base) arm1 arm2 <= 1)
        by (apply cos_gamma_range; assumption).
      unfold shoulder_angle, elbow_angle, gtb. rewrite ltb_ge by assumption.
      unfold clamp. rewrite !clamp_id by assumption.
      set (d := reach_dist x y z base) in *.
      set (t1 := Ratan.asin ((z - base) / d)) in *.
      set (t2 := Ratan.acos (cos_theta2 d arm1 arm2)) in *.
      set (g := Ratan.acos (cos_gamma d arm1 arm2)) in *.
      replace (t1 + t2 + g) with (t1 + (t2 + g)) by ring.
      rewrite (cos_plus t1 t2), (sin_plus t1 t2).
      rewrite (cos_plus t1 (t2 + g)), (sin_plus t1 (t2 + g)).
      assert (Hrot : forall u v, u = d -> v = 0 ->
                cos t1 * u - sin t1 * v = r /\ sin t1 * u + cos t1 * v = z - base).
      { intros u v -> ->. split; lra. }
      destruct (Hrot _ _ Hu Hv) as [Hrho Hh].
      split; [ rewrite <- Hrho | rewrite <- Hh ]; ring.
    - (* full extension *)
      rewrite shoulder_angle_near_reach by (unfold reach_eps; lra).
      rewrite elbow_angle_beyond_reach by lra.
      fold r. rewrite neg_cos, neg_sin.
      assert (Hrz : r <> 0 \/ z - base <> 0).
      { destruct (Req_dec (z - base) 0) as [Hz | Hz]; [ left | now right ].
        intros Hr0. pose proof (reach_dist_sqr x y z base) as Hsq.
        assert (Hr2 : r ^ 2 = x ^ 2 + y ^ 2).
        { apply pow2_sqrt. pose proof (pow2_ge_0 x). pose proof (pow2_ge_0 y).
          lra. }
        rewrite Hr0, Hz in *. nra. }
      destruct (atan2_polar (z - base) r Hrz) as [Hc Hs].
      assert (Hdr : R_sqrt.sqrt (r ^ 2 + (z - base) ^ 2) = arm1 + arm2).
      { rewrite <- Hfull. unfold reach_dist. f_equal. unfold r.
        rewrite pow2_sqrt; [ reflexivity | ].
        pose proof (pow2_ge_0 x). pose proof (pow2_ge_0 y). lra. }
      rewrite Hdr in Hc, Hs. split; lra. }
  destruct Hplanar as [-> ->].
  rewrite Hx, Hy.
  apply (f_equal2 pair); [ apply (f_equal2 pair) | ]; ring.
Qed.

Lemma forward_interior_roundtrip_witness :
  exists angles,
    get_angles 300 0 100 100 204 165 = Ok angles /\
    forward_interior 100 204 165 angles = (300, 0, 100).
Proof.
  assert (Hd : reach_dist 300 0 100 100 = 300) by (apply reach_dist_along_x; lra).
  apply (forward_interior_roundtrip 300 0 100 100 204 165).
  - unfold positive_geometry. lra.
  - rewrite Hd. lra.
  - rewrite Hd. unfold Rabs. destruct (Rcase_abs (204 - 165)); lra.
  - left. rewrite Hd. unfold reach_eps. lra.
Defined.

(** With the forearm at the cumulative angle shoulder + elbow, forward
    kinematics of the returned angles misses the target: for the fully
    extended arm reaching [(369, 0, 100)] the angles are [(0, 0, 180)],
    which fold the forearm back onto the upper arm, to [(39, 0, 100)]. *)
Lemma forward_cumulative_misses_target :
  positive_geometry 100 204 165 /\
  reach_dist 369 0 100 100 <= 204 + 165 /\
  get_angles 369 0 100 100 204 165 = Ok (0, 0, 180) /\
  forward_cumulative 100 204 165 (0, 0, 180) = (39, 0, 100) /\
  Rabs (39 - 369) > (204 + 165) / 1000.
Proof.
  split; [ unfold positive_geometry; lra | ].
  split; [ rewrite reach_dist_along_x by lra; lra | ].
  split; [ apply get_angles_full_extension | ].
  split.
  - unfold forward_cumulative, forward.
    replace (radians 0) with 0 by (unfold radians; ring).
    replace (radians (0 + 180)) with PI
      by (unfold radians; pose proof PI_RGT_0; field).
    rewrite cos_0, sin_0, cos_PI, sin_PI.
    apply (f_equal2 pair); [ apply (f_equal2 pair) | ]; ring.
  - unfold Rabs. destruct (Rcase_abs (39 - 369)); lra.
Qed.

(* ================================================================= *)
(** ** Further properties of [get_angles] *)

(* ----------------------------------------------------------------- *)
(** *** Ranges of the returned angles *)

Lemma atan_nonpos (q : R) : q <= 0 -> atan q <= 0.
Proof.
  intros [H | H].
  - rewrite <- atan_0. left. now apply atan_increasing.
  - subst q. rewrite atan_0. lra.
Qed.

Lemma atan_pos (q : R) : 0 < q -> 0 < atan q.
Proof. intros H. rewrite <- atan_0. now apply atan_increasing. Qed.

(** [atan2] lands in [(-PI, PI]]. *)
Lemma atan2_range (y x : R) : - PI < atan2 y x <= PI.
Proof.
  pose proof PI_RGT_0 as Hpi. pose proof (atan_bound (y / x)) as Hb.
  unfold atan2.
  destruct (ltb_spec 0 x) as [Hp | Hp]; [ lra | ].
  destruct (ltb_spec x 0) as [Hn | Hn].
  - destruct (leb_spec 0 y) as [Hy | Hy].
    + assert (Hq : y / x <= 0).
      { apply Rmult_le_reg_r with (- x); [ lra | ].
        replace (y / x * - x) with (- y) by (field; lra). lra. }
      pose proof (atan_nonpos _ Hq). lra.
    + assert (Hq : 0 < y / x).
      { apply Rmult_lt_reg_r with (- x); [ lra | ].
        replace (y / x * - x) with (- y) by (field; lra). lra. }
      pose proof (atan_pos _ Hq). lra.
  - destruct (ltb_spec 0 y); [ lra | ]. destruct (ltb_spec y 0); lra.
Qed.

(** For a point of the right half plane it lands in [[-PI/2, PI/2]]. *)
Lemma atan2_range_right (y x : R) :
  0 <= x -> - (PI / 2) <= atan2 y x <= PI / 2.
Proof.
  intros Hx. pose proof PI_RGT_0 as Hpi.
  pose proof (atan_bound (y / x)) as Hb.
  unfold atan2.
  destruct (ltb_spec 0 x) as [Hp | Hp]; [ lra | ].
  rewrite ltb_ge by assumption.
  destruct (ltb_spec 0 y); [ lra | ]. destruct (ltb_spec y 0); lra.
Qed.

Lemma base_angle_range (x y : R) : - PI < base_angle x y <= PI.
Proof.
  pose proof PI_RGT_0 as Hpi. unfold base_angle.
  destruct (neb x 0); [ apply atan2_range | ].
  destruct (geb y 0); lra.
Qed.

Lemma degrees_le (a b : R) : a <= b -> degrees a <= degrees b.
Proof.
  intros H. unfold degrees. pose proof PI_RGT_0.
  apply Rmult_le_compat_r; [ | assumption ].
  apply Rlt_le, Rdiv_lt_0_compat; lra.
Qed.

Lemma degrees_lt (a b : R) : a < b -> degrees a < degrees b.
Proof.
  intros H. unfold degrees. pose proof PI_RGT_0.
  apply Rmult_lt_compat_r; [ | assumption ].
  apply Rdiv_lt_0_compat; lra.
Qed.

Lemma degrees_neg_PI : degrees (- PI) = -180.
Proof. unfold degrees. pose proof PI_RGT_0. field. lra. Qed.

Lemma degrees_neg_half_PI : degrees (- (PI / 2)) = -90.
Proof. unfold degrees. pose proof PI_RGT_0. field. lra. Qed.

Lemma degrees_three_half_PI : degrees (3 * (PI / 2)) = 270.
Proof. unfold degrees. pose proof PI_RGT_0. field. lra. Qed.

Lemma degrees_0 : degrees 0 = 0.
Proof. unfold degrees. ring. Qed.

(** What [get_angles] returns, whenever it returns: the three angles in
    radians, with the shoulder angle split as in the code. *)
Lemma get_angles_inv (x y z base arm1 arm2 al be ga : R) :
  get_angles x y z base arm1 arm2 = Ok (al, be, ga) ->
  exists theta1 theta2,
    al = degrees (base_angle x y) /\
    be = degrees (theta1 + theta2) /\
    ga = degrees (elbow_angle x y z base arm1 arm2) /\
    - (PI / 2) <= theta1 <= PI / 2 /\
    0 <= theta2 <= PI.
Proof.
  pose proof PI_RGT_0 as Hpi.
  unfold get_angles, elbow_angle, cos_gamma, clamp.
  rewrite sqrt_ok by apply sum_sqr_nonneg. cbn [bind].
  fold (reach_dist x y z base). set (d := reach_dist x y z base).
  assert (Hshoulder :
            forall th : R * R,
              (if gtb d (arm1 + arm2 - reach_eps)
               then r <- Py.sqrt (x ^ 2 + y ^ 2) ;; ret (atan2 (z - base) r, 0)
               else
                 theta1 <- (if neb d 0
                            then q <- Py.div (z - base) d ;; Py.asin q
                            else ret 0) ;;
                 cos_theta2 <- Py.div (arm1 ^ 2 + d ^ 2 - arm2 ^ 2)
                                      (2 * arm1 * d) ;;
                 theta2 <- Py.acos (Py.max (Py.min cos_theta2 1) (-1)) ;;
                 ret (theta1, theta2)) = Ok th ->
              - (PI / 2) <= fst th <= PI / 2 /\ 0 <= snd th <= PI).
  { intros th. destruct (gtb d (arm1 + arm2 - reach_eps)).
    - rewrite sqrt_ok
        by (pose proof (pow2_ge_0 x); pose proof (pow2_ge_0 y); lra).
      cbn [bind ret]. intros H. injection H as <-. cbn [fst snd].
      split; [ apply atan2_range_right, sqrt_pos | lra ].
    - destruct (neb d 0).
      + destruct (Py.div (z - base) d) as [q | ]; cbn [bind]; [ | discriminate ].
        unfold Py.asin at 1.
        destruct (leb (-1) q && leb q 1); cbn [bind]; [ | discriminate ].
        destruct (Py.div _ _) as [c2 | ]; cbn [bind]; [ | discriminate ].
        unfold Py.acos at 1.
        destruct (leb (-1) _ && leb _ 1); cbn [bind ret]; [ | discriminate ].
        intros H. injection H as <-. cbn [fst snd].
        split; [ apply asin_bound | apply acos_bound ].
      + cbn [bind ret].
        destruct (Py.div _ _) as [c2 | ]; cbn [bind]; [ | discriminate ].
        unfold Py.acos at 1.
        destruct (leb (-1) _ && leb _ 1); cbn [bind ret]; [ | discriminate ].
        intros H. injection H as <-. cbn [fst snd].
        split; [ lra | apply acos_bound ]. }
  match goal with
  | |- context [bind ?c _] => destruct c as [[th1 th2] | ]
  end; cbn [bind]; [ | discriminate ].
  pose proof (Hshoulder (th1, th2) eq_refl) as Hth. cbn [fst snd] in Hth.
  destruct (Py.div _ _) as [cg | ] eqn:Hcg; cbn [bind]; [ | discriminate ].
  unfold Py.div in Hcg.
  destruct (eqb (2 * arm1 * arm2) 0); [ discriminate | ].
  injection Hcg as <-.
  rewrite acos_ok by apply clamp_range. cbn [bind ret].
  intros H. injection H as <- <- <-.
  exists th1, th2. tauto.
Qed.

(** X2. The returned angles stay within fixed ranges: the base angle in
    [[-180, 180]], the shoulder angle in [[-90, 270]] and the elbow angle
    in [[0, 180]] degrees. *)
Theorem get_angles_ranges (x y z base arm1 arm2 al be ga : R) :
  get_angles x y z base arm1 arm2 = Ok (al, be, ga) ->
  -180 <= al <= 180 /\ -90 <= be <= 270 /\ 0 <= ga <= 180.
Proof.
  intros H. apply get_angles_inv in H.
  destruct H as (th1 & th2 & -> & -> & -> & H1 & H2).
  pose proof (base_angle_range x y) as [Ha1 Ha2].
  pose proof (acos_bound (clamp (cos_gamma (reach_dist x y z base) arm1 arm2)))
    as [Hg1 Hg2].
  fold (elbow_angle x y z base arm1 arm2) in Hg1, Hg2.
  rewrite <- degrees_neg_PI, <- degrees_PI, <- degrees_neg_half_PI,
    <- degrees_three_half_PI, <- degrees_0.
  repeat split;
    first [ apply degrees_lt; lra | apply degrees_le; lra ].
Qed.

Lemma get_angles_ranges_witness :
  -180 <= degrees (base_angle 150 0) <= 180 /\
  -90 <= degrees (shoulder_angle 150 0 150 100 204 165) <= 270 /\
  0 <= degrees (elbow_angle 150 0 150 100 204 165) <= 180.
Proof.
  apply (get_angles_ranges 150 0 150 100 204 165).
  apply get_angles_ok.
  - unfold positive_geometry. lra.
  - left. lra.
Defined.

(* ----------------------------------------------------------------- *)
(** *** Turning the target about the vertical axis *)

(** X3. The shoulder and elbow angles depend on [(x, y)] through
    [x**2 + y**2] only: turning the target about the vertical axis changes
    the base angle and nothing else, raising included. *)
Theorem get_angles_rotation (x y x' y' z base arm1 arm2 al be ga : R) :
  x' ^ 2 + y' ^ 2 = x ^ 2 + y ^ 2 ->
  get_angles x y z base arm1 arm2 = Ok (al, be, ga) ->
  get_angles x' y' z base arm1 arm2 = Ok (degrees (base_angle x' y'), be, ga).
Proof.
  intros Hr. unfold get_angles. rewrite Hr.
  destruct (Py.sqrt (x ^ 2 + y ^ 2 + (z - base) ^ 2)) as [d | ];
    cbn [bind]; [ | discriminate ].
  match goal with
  | |- context [bind ?c _] => destruct c as [[th1 th2] | ]
  end; cbn [bind]; [ | discriminate ].
  destruct (Py.div _ _) as [cg | ]; cbn [bind]; [ | discriminate ].
  destruct (Py.acos _) as [g | ]; cbn [bind ret]; [ | discriminate ].
  intros H. injection H as _ <- <-. reflexivity.
Qed.

Lemma get_angles_rotation_witness :
  get_angles 0 150 150 100 204 165
  = Ok (degrees (base_angle 0 150),
        degrees (shoulder_angle 150 0 150 100 204 165),
        degrees (elbow_angle 150 0 150 100 204 165)).
Proof.
  apply (get_angles_rotation 150 0 0 150 150 100 204 165
           (degrees (base_angle 150 0))).
  - ring.
  - apply get_angles_ok.
    + unfold positive_geometry. lra.
    + left. lra.
Defined.

(* ----------------------------------------------------------------- *)
(** *** Beyond maximum reach *)

(** X4. For a target at or beyond maximum reach the returned angles stretch
    the arm straight at the target: forward kinematics (elbow angle read as
    the interior angle) ends on the segment from the base joint to the
    target, at distance [arm1 + arm2] from the base joint. *)
Theorem get_angles_points_at_unreachable (x y z base arm1 arm2 : R) :
  positive_geometry base arm1 arm2 ->
  arm1 + arm2 <= reach_dist x y z base ->
  exists angles,
    get_angles x y z base arm1 arm2 = Ok angles /\
    forward_interior base arm1 arm2 angles
    = ((arm1 + arm2) * x / reach_dist x y z base,
       (arm1 + arm2) * y / reach_dist x y z base,
       base + (arm1 + arm2) * (z - base) / reach_dist x y z base).
Proof.
  intros Hgeo Hfar.
  assert (Heps : arm1 + arm2 - reach_eps < reach_dist x y z base)
    by (unfold reach_eps; lra).
  eexists. split; [ apply get_angles_ok_gen; tauto | ].
  destruct Hgeo as (_ & H1 & H2).
  rewrite forward_interior_radians.
  rewrite shoulder_angle_near_reach by assumption.
  rewrite elbow_angle_beyond_reach by assumption.
  rewrite neg_cos, neg_sin.
  destruct (base_angle_polar x y) as [Hx Hy].
  pose proof (reach_dist_sqr x y z base) as Hsq.
  set (d := reach_dist x y z base) in *.
  set (r := R_sqrt.sqrt (x ^ 2 + y ^ 2)) in *.
  assert (Hd : 0 < d) by lra.
  assert (Hr2 : r ^ 2 = x ^ 2 + y ^ 2).
  { apply pow2_sqrt. pose proof (pow2_ge_0 x). pose proof (pow2_ge_0 y). lra. }
  assert (Hrz : r <> 0 \/ z - base <> 0).
  { destruct (Req_dec (z - base) 0) as [Hz | Hz]; [ left | now right ].
    intros Hr0. rewrite Hr0, Hz in *. nra. }
  destruct (atan2_polar (z - base) r Hrz) as [Hc Hs].
  assert (Hdr : R_sqrt.sqrt (r ^ 2 + (z - base) ^ 2) = d).
  { unfold d, reach_dist. now rewrite Hr2. }
  rewrite Hdr in Hc, Hs.
  set (be := atan2 (z - base) r) in *.
  assert (Hcos : cos be = r / d) by (rewrite <- Hc; field; lra).
  assert (Hsin : sin be = (z - base) / d) by (rewrite <- Hs; field; lra).
  rewrite Hcos, Hsin.
  apply (f_equal2 pair); [ apply (f_equal2 pair) | ].
  - rewrite <- Hx at 2. field. lra.
  - rewrite <- Hy at 2. field. lra.
  - field. lra.
Qed.

Lemma get_angles_points_at_unreachable_witness :
  exists angles,
    get_angles 400 0 100 100 204 165 = Ok angles /\
    forward_interior 100 204 165 angles
    = ((204 + 165) * 400 / reach_dist 400 0 100 100,
       (204 + 165) * 0 / reach_dist 400 0 100 100,
       100 + (204 + 165) * (100 - 100) / reach_dist 400 0 100 100).
Proof.
  apply (get_angles_points_at_unreachable 400 0 100 100 204 165).
  - unfold positive_geometry. lra.
  - rewrite reach_dist_along_x by lra. lra.
Defined.

(* ================================================================= *)
(** ** Further properties of [get_point] *)

(* ----------------------------------------------------------------- *)
(** *** The elbow-up solution *)

Lemma root_le_larger (a b c r : R) :
  0 < a -> 0 <= b ^ 2 - 4 * a * c ->
  a * r ^ 2 - b * r + c = 0 ->
  r <= (b + R_sqrt.sqrt (b ^ 2 - 4 * a * c)) / (2 * a).
Proof.
  intros Ha HD Hroot.
  pose proof (sqrt_pos (b ^ 2 - 4 * a * c)) as Hs0.
  pose proof (sqrt_sqrt _ HD) as Hss.
  set (sd := R_sqrt.sqrt (b ^ 2 - 4 * a * c)) in *.
  assert (Hsq : (2 * a * r - b) ^ 2 = sd * sd) by (rewrite Hss; nra).
  assert (Hle : 2 * a * r - b <= sd).
  { destruct (Rle_dec (2 * a * r - b) sd) as [ | Hn ]; [ assumption | ].
    exfalso. apply Rnot_le_lt in Hn. nra. }
  apply Rmult_le_reg_r with (2 * a); [ lra | ].
  replace ((b + sd) / (2 * a) * (2 * a)) with (b + sd) by (field; lra).
  lra.
Qed.

(** A point of the vertical plane at the base angle that lies on both
    spheres has a height that solves the quadratic of [get_point]. *)
Lemma in_plane_solution_root (x y z base arm1 arm2 alpha_rad a c : R) :
  x_y_term x y alpha_rad <> 0 ->
  a ^ 2 + (a * tan alpha_rad) ^ 2 + (c - base) ^ 2 = arm1 ^ 2 ->
  (a - x) ^ 2 + (a * tan alpha_rad - y) ^ 2 + (c - z) ^ 2 = arm2 ^ 2 ->
  quad_a1 x y z base alpha_rad * c ^ 2
  - quad_b1 x y z base arm1 arm2 alpha_rad * c
  + quad_c1 x y z base arm1 arm2 alpha_rad = 0.
Proof.
  intros Hs Hbase Htarget.
  set (t := tan alpha_rad) in *.
  assert (Hplane : a * x_y_term x y alpha_rad
                   = e_term x y z base arm1 arm2 - c * (z - base)).
  { unfold x_y_term, e_term. fold t. nra. }
  assert (Ha : a = (e_term x y z base arm1 arm2 - c * (z - base))
                   / x_y_term x y alpha_rad).
  { rewrite <- Hplane. field. assumption. }
  transitivity (a ^ 2 + (a * t) ^ 2 + (c - base) ^ 2 - arm1 ^ 2); [ | lra ].
  rewrite Ha. unfold quad_a1, quad_b1, quad_c1, tan_term. fold t.
  field. assumption.
Qed.

Lemma dist3_sqr (p q : R * R * R) (l : R) :
  dist3 p q = l ->
  (fst (fst p) - fst (fst q)) ^ 2 + (snd (fst p) - snd (fst q)) ^ 2
  + (snd p - snd q) ^ 2 = l ^ 2.
Proof.
  destruct p as [[px py] pz], q as [[qx qy] qz]. cbn [fst snd dist3].
  intros <-. symmetry. apply pow2_sqrt.
  pose proof (pow2_ge_0 (px - qx)). pose proof (pow2_ge_0 (py - qy)).
  pose proof (pow2_ge_0 (pz - qz)). lra.
Qed.

(** X5. Where the exact solution is returned it is the elbow-up one: no point
    of the vertical plane at the base angle that is at distance [arm1] from
    the base joint and [arm2] from the target lies higher than the returned
    elbow. *)
Theorem get_point_elbow_up (x y z base arm1 arm2 alpha_rad : R) :
  x <> 0 \/ y <> 0 ->
  x_y_term x y alpha_rad <> 0 ->
  0 <= discriminant x y z base arm1 arm2 alpha_rad ->
  exists a b c,
    get_point x y z base arm1 arm2 alpha_rad = Ok (a, b, c) /\
    forall a' c',
      dist3 (a', a' * tan alpha_rad, c') (0, 0, base) = arm1 ->
      dist3 (a', a' * tan alpha_rad, c') (x, y, z) = arm2 ->
      c' <= c.
Proof.
  intros Hxy Hs HD.
  rewrite (get_point_quadratic _ _ _ _ _ _ _ Hxy Hs).
  eexists _, _, _. split; [ reflexivity | ].
  intros a' c' Hbase Htarget.
  apply dist3_sqr in Hbase, Htarget. cbn [fst snd] in Hbase, Htarget.
  assert (Hbase' : a' ^ 2 + (a' * tan alpha_rad) ^ 2 + (c' - base) ^ 2
                   = arm1 ^ 2) by (rewrite <- Hbase; ring).
  pose proof (in_plane_solution_root x y z base arm1 arm2 alpha_rad a' c'
                Hs Hbase' Htarget) as Hroot.
  pose proof (quad_a1_ge_1 x y z base alpha_rad Hs) as Ha1.
  unfold elbow_c. rewrite ltb_ge by assumption.
  apply root_le_larger; [ lra | exact HD | exact Hroot ].
Qed.

Lemma get_point_elbow_up_witness :
  exists a b c,
    get_point 150 0 150 100 204 165 0 = Ok (a, b, c) /\
    forall a' c',
      dist3 (a', a' * tan 0, c') (0, 0, 100) = 204 ->
      dist3 (a', a' * tan 0, c') (150, 0, 150) = 165 ->
      c' <= c.
Proof.
  apply (get_point_elbow_up 150 0 150 100 204 165 0).
  - left. lra.
  - unfold x_y_term. rewrite tan_0. lra.
  - unfold discriminant, quad_a1, quad_b1, quad_c1, e_term, tan_term, x_y_term.
    rewrite tan_0. lra.
Defined.

(* ----------------------------------------------------------------- *)
(** *** Agreement of [get_point] with the angles of [get_angles] *)

Lemma quad_a1_atan2 (x y z base : R) :
  x <> 0 ->
  quad_a1 x y z base (atan2 y x)
  = (x ^ 2 + y ^ 2 + (z - base) ^ 2) / (x ^ 2 + y ^ 2).
Proof.
  intros Hx.
  assert (Hr : x ^ 2 + y ^ 2 <> 0).
  { pose proof (pow2_pos x Hx). pose proof (pow2_ge_0 y). lra. }
  unfold quad_a1, tan_term, x_y_term. rewrite tan_atan2 by assumption.
  field. split; assumption.
Qed.

Lemma quad_b1_atan2 (x y z base arm1 arm2 : R) :
  x <> 0 ->
  quad_b1 x y z base arm1 arm2 (atan2 y x)
  = 2 * (e_term x y z base arm1 arm2 * (z - base) / (x ^ 2 + y ^ 2) + base).
Proof.
  intros Hx.
  assert (Hr : x ^ 2 + y ^ 2 <> 0).
  { pose proof (pow2_pos x Hx). pose proof (pow2_ge_0 y). lra. }
  unfold quad_b1, tan_term, x_y_term. rewrite tan_atan2 by assumption.
  field. split; assumption.
Qed.

(** The algebra of the larger root, in the coordinates of the vertical
    plane: [r] the horizontal and [zb] the vertical offset of the target,
    [d] its distance, [c2] and [s2] the cosine and sine of [theta2]. *)
Lemma elbow_height_algebra (r zb d base arm1 c2 s2 : R) :
  0 < r -> 0 < d -> d * d = r * r + zb * zb ->
  (2 * ((arm1 * d * c2 + zb * base) * zb / (r * r) + base)
   + 2 * arm1 * d * s2 / r)
  / (2 * ((r * r + zb * zb) / (r * r)))
  = base + arm1 * (zb / d * c2 + r / d * s2).
Proof.
  intros Hr Hd Hsq. rewrite <- Hsq.
  field_simplify_eq; [ | lra ].
  replace (d ^ 2) with (r * r + zb * zb) by (rewrite <- Hsq; ring). ring.
Qed.

Lemma elbow_offset_algebra (r zb d base arm1 c2 s2 x : R) :
  0 < r -> 0 < d -> x <> 0 -> d * d = r * r + zb * zb ->
  (arm1 * d * c2 + zb * base
   - (base + arm1 * (zb / d * c2 + r / d * s2)) * zb) / (r * r / x)
  = arm1 * (r / d * c2 - zb / d * s2) * (x / r).
Proof.
  intros Hr Hd Hx Hsq.
  field_simplify_eq; [ | lra ].
  replace (d ^ 2) with (r * r + zb * zb) by (rewrite <- Hsq; ring). ring.
Qed.

(** X7. For a target off the plane [x = 0], in the law-of-cosines branch and
    within the triangle inequality, the two functions agree: called with
    the base angle that [get_angles] returns, [get_point] returns the elbow
    that the returned base and shoulder angles stand for. *)
Theorem get_point_matches_angles (x y z base arm1 arm2 : R) :
  positive_geometry base arm1 arm2 ->
  x <> 0 ->
  Rabs (arm1 - arm2) <= reach_dist x y z base ->
  reach_dist x y z base <= arm1 + arm2 - reach_eps ->
  exists al be ga,
    get_angles x y z base arm1 arm2 = Ok (al, be, ga) /\
    get_point x y z base arm1 arm2 (radians al)
    = Ok (forward_elbow base arm1 (al, be, ga)).
Proof.
  intros (Hb & H1 & H2) Hx Hlow Hhigh.
  assert (Hd : 0 < reach_dist x y z base) by (apply reach_dist_pos; tauto).
  assert (Hle : reach_dist x y z base <= arm1 + arm2)
    by (unfold reach_eps in Hhigh; lra).
  exists (degrees (base_angle x y)),
    (degrees (shoulder_angle x y z base arm1 arm2)),
    (degrees (elbow_angle x y z base arm1 arm2)).
  split; [ apply get_angles_ok; unfold positive_geometry; tauto | ].
  unfold forward_elbow. rewrite !degrees_radians.
  rewrite base_angle_off_axis by assumption.
  assert (Hc2 : -1 <= cos_theta2 (reach_dist x y z base) arm1 arm2 <= 1)
    by (apply cos_theta2_range; assumption).
  assert (Hbeta : shoulder_angle x y z base arm1 arm2
                  = Ratan.asin ((z - base) / reach_dist x y z base)
                    + Ratan.acos (cos_theta2 (reach_dist x y z base) arm1 arm2)).
  { unfold shoulder_angle, gtb. rewrite ltb_ge by assumption.
    unfold clamp. now rewrite clamp_id. }
  rewrite Hbeta, cos_plus, sin_plus, cos_acos, sin_acos by assumption.
  destruct (elevation_polar x y z base Hd) as [HC1 HS1].
  destruct (atan2_polar y x (or_introl Hx)) as [Hca Hsa].
  pose proof (reach_dist_sqr x y z base) as Hsq.
  pose proof (discriminant_atan2 x y z base arm1 arm2 Hx) as HDisc.
  cbv zeta in HDisc.
  assert (HD : 0 <= discriminant x y z base arm1 arm2 (atan2 y x))
    by (apply discriminant_reachable; tauto).
  assert (Hr : 0 < R_sqrt.sqrt (x ^ 2 + y ^ 2)).
  { apply sqrt_lt_R0. pose proof (pow2_pos x Hx). pose proof (pow2_ge_0 y). lra. }
  assert (Hrr : R_sqrt.sqrt (x ^ 2 + y ^ 2) * R_sqrt.sqrt (x ^ 2 + y ^ 2)
                = x ^ 2 + y ^ 2).
  { apply sqrt_sqrt. pose proof (pow2_ge_0 x). pose proof (pow2_ge_0 y). lra. }
  assert (Hs2n : 0 <= 1 - (cos_theta2 (reach_dist x y z base) arm1 arm2)²)
    by (unfold Rsqr; nra).
  pose proof (sqrt_sqrt _ Hs2n) as Hs2s2.
  pose proof (sqrt_pos (1 - (cos_theta2 (reach_dist x y z base) arm1 arm2)²))
    as Hs2.
  assert (He : e_term x y z base arm1 arm2
               = arm1 * reach_dist x y z base
                 * cos_theta2 (reach_dist x y z base) arm1 arm2
                 + (z - base) * base).
  { replace (arm1 * reach_dist x y z base
             * cos_theta2 (reach_dist x y z base) arm1 arm2)
      with ((arm1 ^ 2 + reach_dist x y z base ^ 2 - arm2 ^ 2) / 2)
      by (unfold cos_theta2; field; lra).
    rewrite Hsq. unfold e_term. field. }
  set (d := reach_dist x y z base) in *.
  set (r := R_sqrt.sqrt (x ^ 2 + y ^ 2)) in *.
  set (c2 := cos_theta2 d arm1 arm2) in *.
  set (s2 := R_sqrt.sqrt (1 - c2²)) in *.
  set (t1 := Ratan.asin ((z - base) / d)) in *.
  set (al := atan2 y x) in *.
  set (zb := z - base) in *.
  assert (Hdd : d * d = r * r + zb * zb).
  { rewrite Hrr. replace (d * d) with (d ^ 2) by ring. rewrite Hsq. ring. }
  assert (Hcos1 : cos t1 = r / d) by (rewrite <- HC1; field; lra).
  assert (Hsin1 : sin t1 = zb / d) by (rewrite <- HS1; field; lra).
  assert (Hcosa : cos al = x / r) by (rewrite <- Hca at 1; field; lra).
  assert (Hsina : sin al = y / r) by (rewrite <- Hsa at 1; field; lra).
  assert (Hsqrt : R_sqrt.sqrt (discriminant x y z base arm1 arm2 al)
                  = 2 * arm1 * d * s2 / r).
  { apply sqrt_lem_1; [ exact HD | | ].
    - apply Rmult_le_pos; [ | apply Rlt_le, Rinv_0_lt_compat; assumption ].
      repeat apply Rmult_le_pos; lra.
    - apply Rmult_eq_reg_r with (r * r); [ | nra ].
      rewrite <- Hrr in HDisc. rewrite HDisc.
      replace (2 * arm1 * d * s2 / r * (2 * arm1 * d * s2 / r) * (r * r))
        with (4 * arm1 ^ 2 * d ^ 2 * (s2 * s2)) by (field; lra).
      rewrite Hs2s2. unfold c2, cos_theta2, Rsqr. field. lra. }
  assert (Hs : x_y_term x y al = r * r / x).
  { unfold al. rewrite x_y_term_atan2 by assumption. now rewrite Hrr. }
  assert (Hs0 : x_y_term x y al <> 0).
  { rewrite Hs. intros H0. apply (Rmult_eq_compat_r x) in H0.
    replace (r * r / x * x) with (r * r) in H0 by (field; assumption). nra. }
  assert (Hc : elbow_c x y z base arm1 arm2 al
               = base + arm1 * (zb / d * c2 + r / d * s2)).
  { unfold elbow_c. rewrite ltb_ge by assumption.
    rewrite Hsqrt. unfold al.
    rewrite quad_a1_atan2, quad_b1_atan2 by assumption.
    rewrite He. fold zb. rewrite <- Hrr.
    replace (r * r + zb ^ 2) with (r * r + zb * zb) by ring.
    now apply elbow_height_algebra. }
  rewrite get_point_quadratic by (assumption || now left).
  rewrite Hc, He, Hs. fold zb.
  rewrite Hcos1, Hsin1, Hcosa, Hsina.
  assert (Ha : (arm1 * d * c2 + zb * base
                - (base + arm1 * (zb / d * c2 + r / d * s2)) * zb) / (r * r / x)
               = arm1 * (r / d * c2 - zb / d * s2) * (x / r))
    by now apply elbow_offset_algebra.
  triple_eq.
  - exact Ha.
  - rewrite Ha. unfold al. rewrite tan_atan2 by assumption. field. lra.
  - reflexivity.
Qed.

Lemma get_point_matches_angles_witness :
  exists al be ga,
    get_angles 300 0 100 100 204 165 = Ok (al, be, ga) /\
    get_point 300 0 100 100 204 165 (radians al)
    = Ok (forward_elbow 100 204 (al, be, ga)).
Proof.
  assert (Hd : reach_dist 300 0 100 100 = 300) by (apply reach_dist_along_x; lra).
  apply (get_point_matches_angles 300 0 100 100 204 165).
  - unfold positive_geometry. lra.
  - lra.
  - rewrite Hd. unfold Rabs. destruct (Rcase_abs (204 - 165)); lra.
  - rewrite Hd. unfold reach_eps. lra.
Defined.

(* ----------------------------------------------------------------- *)
(** *** Which targets get an exact elbow *)

Lemma root_discriminant_nonneg (a b c r : R) :
  a * r ^ 2 - b * r + c = 0 -> 0 <= b ^ 2 - 4 * a * c.
Proof.
  intros Hroot.
  replace (b ^ 2 - 4 * a * c)
    with ((2 * a * r - b) ^ 2 - 4 * a * (a * r ^ 2 - b * r + c)) by ring.
  rewrite Hroot. pose proof (pow2_ge_0 (2 * a * r - b)). lra.
Qed.

(** X6. Called with the base angle of the target (off the plane [x = 0]),
    [get_point] returns a point at distance [arm1] from the base joint and
    [arm2] from the target exactly for the targets whose distance from the
    base joint is between [|arm1 - arm2|] and [arm1 + arm2]. *)
Theorem get_point_exact_iff (x y z base arm1 arm2 : R) :
  0 < arm1 -> 0 < arm2 -> x <> 0 ->
  (exists p,
      get_point x y z base arm1 arm2 (atan2 y x) = Ok p /\
      dist3 p (0, 0, base) = arm1 /\
      dist3 p (x, y, z) = arm2)
  <-> Rabs (arm1 - arm2) <= reach_dist x y z base <= arm1 + arm2.
Proof.
  intros H1 H2 Hx. split.
  - intros (p & Hp & Hbase & Htarget).
    apply discriminant_reachable; try assumption.
    assert (Hs : x_y_term x y (atan2 y x) <> 0).
    { rewrite x_y_term_atan2 by assumption.
      pose proof (pow2_pos x Hx) as Hx2. pose proof (pow2_ge_0 y) as Hy2.
      intros Hzero. apply (Rmult_eq_compat_r x) in Hzero.
      replace ((x ^ 2 + y ^ 2) / x * x) with (x ^ 2 + y ^ 2) in Hzero
        by (field; assumption).
      lra. }
    rewrite get_point_quadratic in Hp by (assumption || now left).
    injection Hp as <-.
    apply dist3_sqr in Hbase, Htarget. cbn [fst snd] in Hbase, Htarget.
    unfold discriminant.
    eapply root_discriminant_nonneg.
    eapply in_plane_solution_root; [ exact Hs | | exact Htarget ].
    rewrite <- Hbase. ring.
  - now apply get_point_distances_reachable.
Qed.

Lemma get_point_exact_iff_witness :
  (exists p,
      get_point 300 0 100 100 204 165 (atan2 0 300) = Ok p /\
      dist3 p (0, 0, 100) = 204 /\
      dist3 p (300, 0, 100) = 165)
  <-> Rabs (204 - 165) <= reach_dist 300 0 100 100 <= 204 + 165.
Proof.
  apply (get_point_exact_iff 300 0 100 100 204 165); lra.
Defined.

(* ================================================================= *)
(** ** [update_plot]: the simulator's use of the solver *)

Lemma update_plot_eq (x y z base arm1 arm2 : R) :
  update_plot x y z (base, arm1, arm2)
  = (content <-
       (if leb (reach_dist x y z base) (arm1 + arm2) then
          angles <- get_angles x y z base arm1 arm2 ;;
          joint2 <- get_point x y z base arm1 arm2
                              (radians (fst (fst angles))) ;;
          ret (Arm {| base_link := ((0, 0, 0), (0, 0, base));
                      upper_link := ((0, 0, base), joint2);
                      fore_link := (joint2, (x, y, z));
                      joints := ((0, 0, 0), (0, 0, base), joint2, (x, y, z));
                      status_angles := angles;
                      target_coords := (x, y, z) |})
        else ret Out_of_reach) ;;
     ret {| content := content;
            xlim := (- (Py.max (Py.max base arm1) arm2 * (3 / 2)),
                     Py.max (Py.max base arm1) arm2 * (3 / 2));
            ylim := (- (Py.max (Py.max base arm1) arm2 * (3 / 2)),
                     Py.max (Py.max base arm1) arm2 * (3 / 2));
            zlim := (0, Py.max (Py.max base arm1) arm2 * (3 / 2) * (6 / 5)) |}).
Proof.
  unfold update_plot.
  rewrite sqrt_ok by apply sum_sqr_nonneg. cbn [bind].
  fold (reach_dist x y z base).
  destruct (leb (reach_dist x y z base) (arm1 + arm2)); [ | reflexivity ].
  destruct (get_angles x y z base arm1 arm2) as [[[al be] ga] | e];
    cbn [bind fst]; [ | reflexivity ].
  destruct (get_point x y z base arm1 arm2 (radians al)) as [[[jx jy] jz] | e];
    reflexivity.
Qed.

(** X8. Out of reach the solver is not called: whatever the geometry, a target
    farther than [arm1 + arm2] from the base joint gives the out-of-reach
    message and no exception. *)
Theorem update_plot_out_of_reach (x y z base arm1 arm2 : R) :
  arm1 + arm2 < reach_dist x y z base ->
  exists ax,
    update_plot x y z (base, arm1, arm2) = Ok ax /\
    content ax = Out_of_reach.
Proof.
  intros Hfar. rewrite update_plot_eq, leb_gt by assumption.
  cbn [bind ret]. eexists. split; reflexivity.
Qed.

Lemma update_plot_out_of_reach_witness :
  exists ax,
    update_plot 400 0 100 (100, 204, 165) = Ok ax /\
    content ax = Out_of_reach.
Proof.
  apply (update_plot_out_of_reach 400 0 100 100 204 165).
  rewrite reach_dist_along_x by lra. lra.
Defined.

(** X9. [update_plot] does not catch the exception of the solver: with
    the sliders on the base joint [(0, 0, base)], a position inside their
    ranges, it raises, for every geometry with a reach of at least the
    tolerance [0.001]. *)
Theorem update_plot_raises_at_base_joint (base arm1 arm2 : R) :
  positive_geometry base arm1 arm2 ->
  reach_eps <= arm1 + arm2 ->
  exists e, update_plot 0 0 base (base, arm1, arm2) = Raise e.
Proof.
  intros (_ & H1 & H2) Hreach. exists ZeroDivisionError.
  rewrite update_plot_eq, reach_dist_base_joint.
  rewrite leb_le by lra.
  rewrite get_angles_at_base_joint by assumption. reflexivity.
Qed.

Lemma update_plot_raises_at_base_joint_witness :
  exists e, update_plot 0 0 100 (100, 204, 165) = Raise e.
Proof.
  apply (update_plot_raises_at_base_joint 100 204 165).
  - unfold positive_geometry. lra.
  - unfold reach_eps. lra.
Defined.

(** X10. The drawn links have the lengths of the arm: for a reachable target
    off the plane [x = 0] and within the triangle inequality, the segment
    from the base joint to the elbow is [arm1] long and the segment from
    the elbow to the target is [arm2] long. *)
Theorem update_plot_link_lengths (x y z base arm1 arm2 : R) :
  positive_geometry base arm1 arm2 ->
  x <> 0 ->
  Rabs (arm1 - arm2) <= reach_dist x y z base <= arm1 + arm2 ->
  exists ax a,
    update_plot x y z (base, arm1, arm2) = Ok ax /\
    content ax = Arm a /\
    link_length (base_link a) = base /\
    link_length (upper_link a) = arm1 /\
    link_length (fore_link a) = arm2 /\
    snd (fore_link a) = (x, y, z).
Proof.
  intros Hgeo Hx [Hlow Hhigh].
  destruct Hgeo as (Hb & H1 & H2).
  destruct (get_point_distances_reachable x y z base arm1 arm2 H1 H2 Hx
              (conj Hlow Hhigh)) as (p & Hp & Hbase & Htarget).
  rewrite update_plot_eq, leb_le by assumption.
  rewrite get_angles_ok by (unfold positive_geometry; tauto).
  cbn [bind fst]. rewrite degrees_radians.
  rewrite base_angle_off_axis by assumption.
  rewrite Hp. cbn [bind ret].
  eexists _, _. split; [ reflexivity | ]. cbn [content].
  split; [ reflexivity | ].
  unfold link_length. cbn [base_link upper_link fore_link fst snd].
  repeat split.
  - unfold dist3.
    replace ((0 - 0) ^ 2 + (0 - 0) ^ 2 + (0 - base) ^ 2) with (base ^ 2) by ring.
    apply sqrt_pow2. lra.
  - destruct p as [[px py] pz]. unfold dist3 in *.
    rewrite <- Hbase. f_equal. ring.
  - exact Htarget.
Qed.

Lemma update_plot_link_lengths_witness :
  exists ax a,
    update_plot 300 0 100 (100, 204, 165) = Ok ax /\
    content ax = Arm a /\
    link_length (base_link a) = 100 /\
    link_length (upper_link a) = 204 /\
    link_length (fore_link a) = 165 /\
    snd (fore_link a) = (300, 0, 100).
Proof.
  assert (Hd : reach_dist 300 0 100 100 = 300) by (apply reach_dist_along_x; lra).
  apply (update_plot_link_lengths 300 0 100 100 204 165).
  - unfold positive_geometry. lra.
  - lra.
  - rewrite Hd. unfold Rabs. destruct (Rcase_abs (204 - 165)); lra.
Defined.

(* ================================================================= *)
(** ** The servo controller *)

Section Controller.

Import SSC_32U.
Local Open Scope string_scope.

(* ----------------------------------------------------------------- *)
(** *** Strings *)

Lemma last_char_none (s : string) : last_char s = None -> s = "".
Proof.
  destruct s as [ | c s ]; [ reflexivity | ].
  cbn. destruct (last_char s); discriminate.
Qed.

Lemma last_char_app (s u : string) :
  u <> "" -> last_char (s ++ u) = last_char u.
Proof.
  intros Hu. induction s as [ | c s IH ]; [ reflexivity | ].
  cbn. rewrite IH. destruct (last_char u) eqn:E; [ reflexivity | ].
  apply last_char_none in E. contradiction.
Qed.

Lemma app_nonempty_r (s u : string) : u <> "" -> s ++ u <> "".
Proof.
  intros Hu. destruct s; [ exact Hu | discriminate ].
Qed.

Lemma substring_last (s : string) :
  substring (String.length s - 1) 1 s
  = match last_char s with
    | Some c => String c ""
    | None => ""
    end.
Proof.
  induction s as [ | c s IH ]; [ reflexivity | ].
  cbn [String.length last_char].
  replace (S (String.length s) - 1)%nat with (String.length s) by lia.
  destruct s as [ | c' s ]; [ reflexivity | ].
  cbn [String.length] in *.
  replace (S (String.length s) - 1)%nat with (String.length s) in IH by lia.
  change (substring (S (String.length s)) 1 (String c (String c' s)))
    with (substring (String.length s) 1 (String c' s)).
  rewrite IH.
  destruct (last_char (String c' s)) eqn:E; [ reflexivity | ].
  apply last_char_none in E. discriminate.
Qed.

(** [s.endswith('\r')] looks at the last character. *)
Lemma endswith_CR (s : string) :
  endswith s CR
  = match last_char s with
    | Some c => Ascii.eqb c "013"
    | None => false
    end.
Proof.
  unfold endswith, CR. cbn [String.length].
  destruct s as [ | c s ]; [ reflexivity | ].
  replace (1 <=? String.length (String c s))%nat with true
    by (symmetry; apply Nat.leb_le; cbn; lia).
  rewrite substring_last. cbn [andb].
  destruct (last_char (String c s)) eqn:E.
  - cbn. destruct (Ascii.eqb a "013"); reflexivity.
  - apply last_char_none in E. discriminate.
Qed.

Lemma endswith_app_CR (s : string) : endswith (s ++ CR) CR = true.
Proof.
  rewrite endswith_CR, last_char_app by discriminate. reflexivity.
Qed.

Lemma last_ok_endswith (s : string) : last_ok s -> endswith s CR = false.
Proof.
  unfold last_ok. rewrite endswith_CR.
  destruct (last_char s) as [ c | ]; [ | reflexivity ].
  intros Hc. destruct (Ascii.eqb_spec c "013"); [ | reflexivity ].
  subst c. discriminate.
Qed.

Lemma rstrip_app_CR (s : string) : rstrip (s ++ CR) = rstrip s.
Proof.
  induction s as [ | c s IH ]; [ reflexivity | ].
  cbn [append rstrip]. now rewrite IH.
Qed.

Lemma rstrip_last_ok (s : string) : last_ok s -> rstrip s = s.
Proof.
  unfold last_ok. induction s as [ | c s IH ]; [ reflexivity | ].
  cbn [last_char rstrip].
  destruct (last_char s) eqn:E.
  - intros Hc. rewrite (IH Hc).
    destruct s; [ discriminate | reflexivity ].
  - apply last_char_none in E. subst s. cbn. now intros ->.
Qed.

Lemma lstrip_first_ok (s : string) : first_ok s -> lstrip s = s.
Proof.
  destruct s as [ | c s ]; [ reflexivity | ]. cbn. now intros ->.
Qed.

(** Stripping a tidy command with its terminator gives the command. *)
Lemma strip_tidy_CR (s : string) : tidy s -> strip (s ++ CR) = s.
Proof.
  intros [Hf Hl]. unfold strip.
  destruct s as [ | c s ]; [ reflexivity | ].
  change (String c s ++ CR) with (String c (s ++ CR)).
  rewrite lstrip_first_ok by exact Hf.
  change (String c (s ++ CR)) with (String c s ++ CR).
  rewrite rstrip_app_CR. now apply rstrip_last_ok.
Qed.

Lemma isdigit_not_space (c : ascii) : isdigit c = true -> isspace c = false.
Proof.
  unfold isdigit, isspace. intros H.
  apply Bool.andb_true_iff in H. destruct H as [H1 H2].
  apply Nat.leb_le in H1, H2.
  repeat rewrite Bool.orb_false_iff. repeat split.
  - apply Bool.andb_false_iff. right. apply Nat.leb_gt. lia.
  - apply Bool.andb_false_iff. right. apply Nat.leb_gt. lia.
  - apply Nat.eqb_neq. lia.
  - apply Nat.eqb_neq. lia.
Qed.

Lemma uint_last_digit (d : Decimal.uint) (c : ascii) :
  last_char (NilEmpty.string_of_uint d) = Some c -> isdigit c = true.
Proof.
  induction d as [ | d IH | d IH | d IH | d IH | d IH | d IH | d IH | d IH
                   | d IH | d IH ];
    cbn [NilEmpty.string_of_uint last_char]; try discriminate;
    (destruct (last_char (NilEmpty.string_of_uint d)) as [ c' | ];
     [ exact IH | intros H; injection H as <-; reflexivity ]).
Qed.

Lemma uint_nonempty (d : Decimal.uint) :
  d <> Decimal.Nil -> NilEmpty.string_of_uint d <> "".
Proof. destruct d; [ contradiction | .. ]; discriminate. Qed.

Lemma pos_string (p : positive) :
  NilZero.string_of_uint (Pos.to_uint p)
  = NilEmpty.string_of_uint (Pos.to_uint p).
Proof.
  pose proof (Unsigned.to_uint_nonnil p) as H.
  unfold NilZero.string_of_uint. destruct (Pos.to_uint p); [ contradiction | .. ];
    reflexivity.
Qed.

(** [str(n)] is not empty, ends with a digit and starts with a digit or
    the sign. *)
Lemma str_nonempty (n : Z) : str n <> "".
Proof.
  destruct n as [ | p | p ]; unfold str; cbn [Z.to_int NilZero.string_of_int].
  - discriminate.
  - rewrite pos_string. apply uint_nonempty, Unsigned.to_uint_nonnil.
  - discriminate.
Qed.

Lemma str_last_ok (n : Z) : last_ok (str n).
Proof.
  unfold last_ok.
  destruct (last_char (str n)) as [ c | ] eqn:E; [ | exact I ].
  apply isdigit_not_space.
  destruct n as [ | p | p ]; unfold str in E;
    cbn [Z.to_int NilZero.string_of_int] in E.
  - cbn in E. injection E as <-. reflexivity.
  - rewrite pos_string in E. now apply uint_last_digit in E.
  - rewrite pos_string in E.
    change (String "-" (NilEmpty.string_of_uint (Pos.to_uint p)))
      with ("-" ++ NilEmpty.string_of_uint (Pos.to_uint p)) in E.
    rewrite last_char_app in E
      by apply uint_nonempty, Unsigned.to_uint_nonnil.
    now apply uint_last_digit in E.
Qed.

Lemma last_ok_app (s u : string) : u <> "" -> last_ok u -> last_ok (s ++ u).
Proof. intros Hu H. unfold last_ok. now rewrite last_char_app. Qed.

Lemma last_ok_app_str (s : string) (n : Z) : last_ok (s ++ str n).
Proof. apply last_ok_app; [ apply str_nonempty | apply str_last_ok ]. Qed.

Lemma append_assoc (s u v : string) : (s ++ u) ++ v = s ++ (u ++ v).
Proof. induction s as [ | c s IH ]; [ reflexivity | ]. cbn. now rewrite IH. Qed.

Lemma append_nil_r (s : string) : s ++ "" = s.
Proof. induction s as [ | c s IH ]; [ reflexivity | ]. cbn. now rewrite IH. Qed.

Lemma first_ok_app (s u : string) :
  first_ok s -> first_ok u -> first_ok (s ++ u).
Proof. destruct s; cbn; auto. Qed.

Lemma tidy_servo_command (channel position : Z) :
  tidy (servo_command channel position).
Proof.
  split; [ reflexivity | ].
  unfold servo_command.
  rewrite <- !append_assoc. apply last_ok_app_str.
Qed.

Lemma tidy_app (s u : string) : tidy s -> tidy u -> u <> "" -> tidy (s ++ u).
Proof.
  intros [Hf Hl] [Hf' Hl'] Hu. split.
  - now apply first_ok_app.
  - now apply last_ok_app.
Qed.

Lemma tidy_empty : tidy "".
Proof. split; exact I. Qed.

Lemma tidy_with_speed (command : string) (speed : option Z) :
  tidy command -> tidy (with_speed command speed).
Proof.
  intros H. destruct speed as [ spd | ]; [ | exact H ].
  cbn [with_speed]. apply tidy_app; [ exact H | | discriminate ].
  split; [ reflexivity | apply last_ok_app_str ].
Qed.

Lemma tidy_with_time (command : string) (time : option Z) :
  tidy command -> tidy (with_time command time).
Proof.
  intros H. destruct time as [ tm | ]; [ | exact H ].
  cbn [with_time]. apply tidy_app; [ exact H | | discriminate ].
  split; [ reflexivity | apply last_ok_app_str ].
Qed.

Lemma servo_command_nonempty (channel position : Z) :
  servo_command channel position <> "".
Proof. discriminate. Qed.

Lemma tidy_group_command (positions : list (Z * Z)) :
  tidy (group_command positions).
Proof.
  induction positions as [ | [channel position] rest IH ];
    [ apply tidy_empty | ].
  cbn [group_command].
  destruct (group_command rest) eqn:E.
  - rewrite append_nil_r. apply tidy_servo_command.
  - apply tidy_app; [ apply tidy_servo_command | exact IH | discriminate ].
Qed.

(* ----------------------------------------------------------------- *)
(** *** Sending *)

(** What [send_command] does with a tidy command on an open port when the
    write goes through: the command and one ['\r'] reach the wire, the
    command is printed and recorded with the time. *)
Lemma send_command_tidy (e : env) (command : string) (self : t) (w : world)
      (s : Serial) :
  serial self = Some s -> write e = Written -> tidy command ->
  send_command e command (self, w)
  = (set_last self (command ++ CR) (clock e),
     {| wire := (wire w ++ encode (command ++ CR))%list;
        stdout := (stdout w ++ [("Sent command: " ++ command)%string])%list |},
     true).
Proof.
  intros Hs Hw Ht. unfold send_command. rewrite Hs, Hw.
  rewrite last_ok_endswith by apply Ht.
  rewrite strip_tidy_CR by exact Ht. reflexivity.
Qed.

(** X17. A command that already ends with ['\r'] is sent as it is: sending
    [command] and sending [command + '\r'] are the same call. *)
Theorem send_command_terminator (e : env) (command : string) (st : t * world) :
  endswith command CR = false ->
  send_command e (command ++ CR) st = send_command e command st.
Proof.
  intros Hend. destruct st as [self w]. unfold send_command.
  now rewrite endswith_app_CR, Hend.
Qed.

Lemma send_command_terminator_witness :
  send_command {| write := Written; clock := 0%R |} ("#5P1500" ++ CR)
               (__init__ "COM3" 9600 1, {| wire := []; stdout := [] |})
  = send_command {| write := Written; clock := 0%R |} "#5P1500"
                 (__init__ "COM3" 9600 1, {| wire := []; stdout := [] |}).
Proof.
  apply (send_command_terminator _ "#5P1500"). reflexivity.
Defined.

(* ----------------------------------------------------------------- *)
(** *** [move_servo] *)

Lemma channel_check (channel : Z) :
  ((channel <? 0) || (channel >? 31))%Z = false <-> (0 <= channel <= 31)%Z.
Proof.
  rewrite Bool.orb_false_iff, Z.ltb_ge, Z.gtb_ltb, Z.ltb_ge. lia.
Qed.

Lemma position_check (self : t) (position : Z) :
  ((position <? min_pwm self) || (position >? max_pwm self))%Z = false
  <-> (min_pwm self <= position <= max_pwm self)%Z.
Proof.
  rewrite Bool.orb_false_iff, Z.ltb_ge, Z.gtb_ltb, Z.ltb_ge. lia.
Qed.

Lemma move_servo_valid (e : env) (channel position : Z) (speed time : option Z)
      (self : t) (w : world) :
  valid_move self channel position ->
  move_servo e channel position speed time (self, w)
  = Return (send_command e
              (with_time (with_speed (servo_command channel position) speed)
                         time)
              (self, w)).
Proof.
  intros [Hc Hp]. unfold move_servo.
  apply channel_check in Hc. apply position_check in Hp.
  now rewrite Hc, Hp.
Qed.

Lemma move_servo_invalid (e : env) (channel position : Z)
      (speed time : option Z) (self : t) (w : world) :
  ~ valid_move self channel position ->
  exists msg,
    move_servo e channel position speed time (self, w) = ValueError msg.
Proof.
  intros Hn. unfold move_servo.
  destruct ((channel <? 0) || (channel >? 31))%Z eqn:Hc; [ eauto | ].
  destruct ((position <? min_pwm self) || (position >? max_pwm self))%Z eqn:Hp;
    [ eauto | ].
  exfalso. apply Hn. split; [ now apply channel_check | now apply position_check ].
Qed.

(** X11. [move_servo] raises [ValueError] exactly when the channel is outside
    [0..31] or the position outside [min_pwm..max_pwm], whether or not the
    port is open and whatever speed and time are. *)
Theorem move_servo_raises_iff (e : env) (channel position : Z)
        (speed time : option Z) (self : t) (w : world) :
  (exists msg,
      move_servo e channel position speed time (self, w) = ValueError msg)
  <-> ~ valid_move self channel position.
Proof.
  split.
  - intros [msg H] Hv. rewrite move_servo_valid in H by assumption.
    discriminate.
  - apply move_servo_invalid.
Qed.

(** X12. On an open port, when the write goes through, [move_servo] with valid
    arguments puts [#<ch>P<pw>], the optional [S<speed>] and [T<time>] and
    exactly one ['\r'] on the wire, records that string with the time as
    the last command, prints the command and returns [True]. *)
Theorem move_servo_sends (e : env) (channel position : Z)
        (speed time : option Z) (self : t) (w : world) (s : Serial) :
  serial self = Some s -> write e = Written ->
  valid_move self channel position ->
  let command :=
    with_time (with_speed (servo_command channel position) speed) time in
  move_servo e channel position speed time (self, w)
  = Return (set_last self (command ++ CR) (clock e),
            {| wire := (wire w ++ encode (command ++ CR))%list;
               stdout := (stdout w ++ [("Sent command: " ++ command)%string])%list |},
            true).
Proof.
  intros Hs Hw Hv command.
  rewrite move_servo_valid by assumption.
  rewrite (send_command_tidy _ _ _ _ s) by
    (assumption || apply tidy_with_time, tidy_with_speed, tidy_servo_command).
  reflexivity.
Qed.

Lemma move_servo_sends_witness :
  move_servo {| write := Written; clock := 7%R |} 5 1500 (Some 0%Z) None
             connected_default
  = Return (set_last (fst connected_default) ("#5P1500S0" ++ CR) 7%R,
            {| wire := (wire (snd connected_default)
                        ++ encode ("#5P1500S0" ++ CR))%list;
               stdout := (stdout (snd connected_default)
                          ++ ["Sent command: #5P1500S0"])%list |},
            true).
Proof.
  apply (move_servo_sends {| write := Written; clock := 7%R |} 5 1500
           (Some 0%Z) None (fst connected_default) (snd connected_default)
           {| ser_port := "COM3"; ser_baudrate := 9600; ser_timeout := 1 |}).
  - reflexivity.
  - reflexivity.
  - unfold valid_move. cbn. lia.
Defined.

(** The return value of [send_command] tells whether the command was
    written. *)
Lemma send_command_result (e : env) (command : string) (self self' : t)
      (w w' : world) (b : bool) :
  send_command e command (self, w) = (self', w', b) ->
  (b = true <-> serial self <> None /\ write e = Written) /\
  (b = false ->
   last_command self' = last_command self /\
   last_command_time self' = last_command_time self) /\
  (serial self = None -> self' = self /\ w' = w).
Proof.
  unfold send_command.
  destruct (serial self) as [ s | ].
  - destruct (write e) as [ | sent msg ]; intros H; injection H as <- <- <-.
    + repeat split; try discriminate; auto.
    + repeat split; try discriminate; intuition discriminate.
  - intros H. injection H as <- <- <-.
    repeat split; try discriminate; intuition discriminate.
Qed.

(** X13. When [move_servo] returns, its value tells whether the command was
    written: it is [True] exactly when the port is open and the write went
    through, and otherwise the last command and its time stay as they
    were; on a closed port nothing changes at all. *)
Theorem move_servo_result (e : env) (channel position : Z)
        (speed time : option Z) (self self' : t) (w w' : world) (b : bool) :
  move_servo e channel position speed time (self, w) = Return (self', w', b) ->
  (b = true <-> serial self <> None /\ write e = Written) /\
  (b = false ->
   last_command self' = last_command self /\
   last_command_time self' = last_command_time self) /\
  (serial self = None -> self' = self /\ w' = w).
Proof.
  unfold move_servo.
  destruct ((channel <? 0) || (channel >? 31))%Z; [ discriminate | ].
  destruct ((position <? min_pwm self) || (position >? max_pwm self))%Z;
    [ discriminate | ].
  intros H. injection H as H. now apply send_command_result in H.
Qed.

Lemma move_servo_result_witness :
  (false = true
   <-> serial (fst fresh_default) <> None
       /\ write {| write := Written; clock := 7%R |} = Written) /\
  (false = false ->
   last_command (fst fresh_default) = last_command (fst fresh_default) /\
   last_command_time (fst fresh_default)
   = last_command_time (fst fresh_default)) /\
  (serial (fst fresh_default) = None ->
   fst fresh_default = fst fresh_default
   /\ snd fresh_default = snd fresh_default).
Proof.
  apply (move_servo_result {| write := Written; clock := 7%R |} 5 1500
           None None (fst fresh_default) (fst fresh_default)
           (snd fresh_default) (snd fresh_default) false).
  reflexivity.
Defined.

(* ----------------------------------------------------------------- *)
(** *** [move_multiple_servos] *)

Lemma valid_move_dec (self : t) (cp : Z * Z) :
  {valid_move self (fst cp) (snd cp)} + {~ valid_move self (fst cp) (snd cp)}.
Proof.
  unfold valid_move.
  destruct (Z_le_dec 0 (fst cp)), (Z_le_dec (fst cp) 31),
    (Z_le_dec (min_pwm self) (snd cp)), (Z_le_dec (snd cp) (max_pwm self));
    (left; lia) || (right; lia).
Qed.

(** The loop over valid pairs extends the command by their texts. *)
Lemma servo_commands_valid (self : t) (positions : list (Z * Z))
      (command : string) :
  Forall (fun cp => valid_move self (fst cp) (snd cp)) positions ->
  servo_commands self positions command
  = Return (command ++ group_command positions).
Proof.
  intros H. revert command.
  induction H as [ | [channel position] rest [Hc Hp] _ IH ]; intros command.
  - cbn. now rewrite append_nil_r.
  - cbn [servo_commands fst snd] in *.
    apply channel_check in Hc. apply position_check in Hp.
    rewrite Hc, Hp, IH. cbn [group_command]. unfold servo_command.
    now rewrite !append_assoc.
Qed.

(** The loop stops with [ValueError] at the first pair it rejects. *)
Lemma servo_commands_invalid (self : t) (positions : list (Z * Z))
      (command : string) :
  Exists (fun cp => ~ valid_move self (fst cp) (snd cp)) positions ->
  exists msg, servo_commands self positions command = ValueError msg.
Proof.
  intros H. revert command.
  induction H as [ [channel position] rest Hn | [channel position] rest _ IH ];
    intros command; cbn [servo_commands fst snd] in *.
  - destruct ((channel <? 0) || (channel >? 31))%Z eqn:Hc; [ eauto | ].
    destruct ((position <? min_pwm self) || (position >? max_pwm self))%Z
      eqn:Hp; [ eauto | ].
    exfalso. apply Hn.
    split; [ now apply channel_check | now apply position_check ].
  - destruct ((channel <? 0) || (channel >? 31))%Z; [ eauto | ].
    destruct ((position <? min_pwm self) || (position >? max_pwm self))%Z;
      [ eauto | ].
    apply IH.
Qed.

Lemma move_multiple_servos_valid (e : env) (positions : list (Z * Z))
      (speed time : option Z) (self : t) (w : world) :
  (List.length positions <= 32)%nat ->
  Forall (fun cp => valid_move self (fst cp) (snd cp)) positions ->
  let command := with_time (with_speed (group_command positions) speed) time in
  move_multiple_servos e positions speed time (self, w)
  = Return (send_command e command
              (self, print ("Command to send: " ++ command) w)).
Proof.
  intros Hlen Hall command. unfold move_multiple_servos.
  replace (32 <? List.length positions)%nat with false
    by (symmetry; apply Nat.ltb_ge; assumption).
  rewrite servo_commands_valid by assumption. reflexivity.
Qed.

(** X14. [move_multiple_servos] raises [ValueError] exactly when there are more
    than 32 pairs or some pair has its channel outside [0..31] or its
    position outside [min_pwm..max_pwm]. *)
Theorem move_multiple_servos_raises_iff (e : env) (positions : list (Z * Z))
        (speed time : option Z) (self : t) (w : world) :
  (exists msg,
      move_multiple_servos e positions speed time (self, w) = ValueError msg)
  <-> (32 < List.length positions)%nat
      \/ Exists (fun cp => ~ valid_move self (fst cp) (snd cp)) positions.
Proof.
  split.
  - intros [msg H].
    destruct (Nat.le_gt_cases (List.length positions) 32) as [Hlen | Hlen];
      [ | now left ].
    right.
    destruct (Forall_Exists_dec _ (valid_move_dec self) positions)
      as [Hall | Hex]; [ | exact Hex ].
    rewrite move_multiple_servos_valid in H by assumption. discriminate.
  - intros [Hlen | Hex]; unfold move_multiple_servos.
    + replace (32 <? List.length positions)%nat with true
        by (symmetry; apply Nat.ltb_lt; assumption).
      eauto.
    + destruct (32 <? List.length positions)%nat; [ eauto | ].
      destruct (servo_commands_invalid self positions "" Hex) as [msg ->].
      eauto.
Qed.

(** X15. A list of one pair is the single move: [move_multiple_servos] with
    [[(channel, position)]] does what [move_servo] does, after printing the
    command. *)
Theorem move_multiple_servos_single (e : env) (channel position : Z)
        (speed time : option Z) (self : t) (w : world) :
  valid_move self channel position ->
  move_multiple_servos e [(channel, position)] speed time (self, w)
  = move_servo e channel position speed time
      (self,
       print ("Command to send: "
              ++ with_time (with_speed (servo_command channel position) speed)
                           time) w).
Proof.
  intros Hv.
  rewrite move_servo_valid by assumption.
  rewrite move_multiple_servos_valid.
  - cbn [group_command]. now rewrite append_nil_r.
  - cbn. lia.
  - constructor; [ exact Hv | constructor ].
Qed.

Lemma move_multiple_servos_single_witness :
  move_multiple_servos {| write := Written; clock := 7%R |} [(5, 1500)%Z]
                       None (Some 1000%Z) connected_default
  = move_servo {| write := Written; clock := 7%R |} 5 1500 None (Some 1000%Z)
      (fst connected_default,
       print ("Command to send: "
              ++ with_time (with_speed (servo_command 5 1500) None)
                           (Some 1000%Z))
             (snd connected_default)).
Proof.
  apply (move_multiple_servos_single {| write := Written; clock := 7%R |}
           5 1500 None (Some 1000%Z) (fst connected_default)
           (snd connected_default)).
  unfold valid_move. cbn. lia.
Defined.

(** X16. On an open port, when the write goes through, [move_multiple_servos]
    with at most 32 valid pairs sends one command: the texts [#<ch>P<pw>]
    of the pairs in order, one optional [S<speed>], one optional [T<time>]
    and one ['\r']; for an empty list without speed and time that is the
    ['\r'] alone. *)
Theorem move_multiple_servos_sends (e : env) (positions : list (Z * Z))
        (speed time : option Z) (self : t) (w : world) (s : Serial) :
  serial self = Some s -> write e = Written ->
  (List.length positions <= 32)%nat ->
  Forall (fun cp => valid_move self (fst cp) (snd cp)) positions ->
  let command := with_time (with_speed (group_command positions) speed) time in
  move_multiple_servos e positions speed time (self, w)
  = Return (set_last self (command ++ CR) (clock e),
            {| wire := (wire w ++ encode (command ++ CR))%list;
               stdout := (stdout w
                          ++ [("Command to send: " ++ command)%string;
                              ("Sent command: " ++ command)%string])%list |},
            true).
Proof.
  intros Hs Hw Hlen Hall command.
  rewrite move_multiple_servos_valid by assumption.
  rewrite (send_command_tidy _ _ _ _ s) by
    (assumption || apply tidy_with_time, tidy_with_speed, tidy_group_command).
  unfold print. cbn [wire stdout]. fold command.
  now rewrite <- app_assoc.
Qed.

Lemma move_multiple_servos_sends_witness :
  move_multiple_servos {| write := Written; clock := 7%R |} [] None None
                       connected_default
  = Return (set_last (fst connected_default) ("" ++ CR) 7%R,
            {| wire := (wire (snd connected_default) ++ encode ("" ++ CR))%list;
               stdout := (stdout (snd connected_default)
                          ++ ["Command to send: "; "Sent command: "])%list |},
            true).
Proof.
  apply (move_multiple_servos_sends {| write := Written; clock := 7%R |} []
           None None (fst connected_default) (snd connected_default)
           {| ser_port := "COM3"; ser_baudrate := 9600; ser_timeout := 1 |}).
  - reflexivity.
  - reflexivity.
  - cbn. lia.
  - constructor.
Defined.

(* ----------------------------------------------------------------- *)
(** *** Sequences of calls *)

Lemma consistent_set_link_open (self : t) (s : Serial) :
  consistent self -> consistent (set_link self (Some s) true).
Proof.
  intros [_ Hl]. split; [ | exact Hl ]. cbn. split; [ discriminate | reflexivity ].
Qed.

Lemma consistent_set_link_closed (self : t) :
  consistent self -> consistent (set_link self None false).
Proof.
  intros [_ Hl]. split; [ | exact Hl ]. cbn. split; [ discriminate | tauto ].
Qed.

Lemma consistent_send_command (e : env) (command : string) (st : t * world) :
  consistent (fst st) -> consistent (fst (fst (send_command e command st))).
Proof.
  destruct st as [self w]. cbn [fst]. intros H. unfold send_command.
  destruct (serial self) as [ s | ]; [ | exact H ].
  destruct (write e); [ | exact H ].
  destruct H as [Hc Hl]. cbn [fst]. split; [ exact Hc | ].
  cbn. intros c H. injection H as <-.
  destruct (endswith command CR) eqn:E; [ exact E | apply endswith_app_CR ].
Qed.

Lemma Return_inj (A : Type) (a b : A) : Return a = Return b -> a = b.
Proof. intros H. now injection H. Qed.

Lemma consistent_after (B : Type) (st : t * world)
      (r : outcome (t * world * B)) :
  consistent (fst st) ->
  (forall st' b, r = Return (st', b) -> consistent (fst st')) ->
  consistent (fst (after st r)).
Proof.
  intros Hst Hr. destruct r as [[st' b] | msg]; cbn [after]; eauto.
Qed.

Lemma consistent_step (st : t * world) (c : call) :
  consistent (fst st) -> consistent (fst (step st c)).
Proof.
  intros H. destruct c as [ o | | e command | e channel position speed time
                          | e positions speed time ]; cbn [step].
  - destruct st as [self w]. destruct o; cbn [connect fst].
    + now apply consistent_set_link_open.
    + now apply consistent_set_link_closed.
  - destruct st as [self w]. unfold disconnect.
    destruct (serial self); cbn [fst] in *;
      [ now apply consistent_set_link_closed | exact H ].
  - now apply consistent_send_command.
  - apply consistent_after; [ exact H | ].
    intros st' b. destruct st as [self w]. unfold move_servo.
    destruct ((channel <? 0) || (channel >? 31))%Z; [ discriminate | ].
    destruct ((position <? min_pwm self) || (position >? max_pwm self))%Z;
      [ discriminate | ].
    intros E. apply Return_inj in E.
    apply (f_equal fst) in E. cbn [fst] in E. rewrite <- E.
    now apply (consistent_send_command e _ (self, w)).
  - apply consistent_after; [ exact H | ].
    intros st' b. destruct st as [self w]. unfold move_multiple_servos.
    destruct (32 <? List.length positions)%nat; [ discriminate | ].
    destruct (servo_commands self positions "") as [ command | msg ];
      [ | discriminate ].
    intros E. apply Return_inj in E.
    apply (f_equal fst) in E. cbn [fst] in E. rewrite <- E.
    now apply (consistent_send_command e _ (self, _)).
Qed.

Lemma limits_step (st : t * world) (c : call) :
  min_pwm (fst (step st c)) = min_pwm (fst st) /\
  max_pwm (fst (step st c)) = max_pwm (fst st).
Proof.
  destruct st as [self w].
  destruct c as [ o | | e command | e channel position speed time
                | e positions speed time ]; cbn [step fst].
  - destruct o; split; reflexivity.
  - unfold disconnect. destruct (serial self); split; reflexivity.
  - unfold send_command. destruct (serial self); [ | split; reflexivity ].
    destruct (write e); split; reflexivity.
  - unfold move_servo.
    destruct ((channel <? 0) || (channel >? 31))%Z; [ split; reflexivity | ].
    destruct ((position <? min_pwm self) || (position >? max_pwm self))%Z;
      [ split; reflexivity | ].
    cbn [after]. unfold send_command.
    destruct (serial self); [ | split; reflexivity ].
    destruct (write e); split; reflexivity.
  - unfold move_multiple_servos.
    destruct (32 <? List.length positions)%nat; [ split; reflexivity | ].
    destruct (servo_commands self positions ""); [ | split; reflexivity ].
    cbn [after]. unfold send_command.
    destruct (serial self); [ | split; reflexivity ].
    destruct (write e); split; reflexivity.
Qed.

(** X18. After any sequence of calls on a new instance, whatever the port and
    the clock did: the flag [connected] is set exactly when [serial] holds
    a port, the last command, when there is one, ends with ['\r'], and the
    pulse limits are still 600 and 2400. *)
Theorem run_consistent (port : string) (baud_rate timeout : Z) (w : world)
        (calls : list call) :
  let self := fst (run (__init__ port baud_rate timeout, w) calls) in
  (connected self = true <-> serial self <> None) /\
  (forall command, last_command self = Some command ->
                   endswith command CR = true) /\
  min_pwm self = 600%Z /\ max_pwm self = 2400%Z.
Proof.
  assert (Hgen : forall st,
             consistent (fst st) ->
             consistent (fst (run st calls)) /\
             min_pwm (fst (run st calls)) = min_pwm (fst st) /\
             max_pwm (fst (run st calls)) = max_pwm (fst st)).
  { unfold run. induction calls as [ | c calls IH ]; intros st Hst.
    - cbn. tauto.
    - cbn [fold_left].
      destruct (IH (step st c) (consistent_step st c Hst)) as (Hc & Hmin & Hmax).
      destruct (limits_step st c) as [Hmin' Hmax'].
      split; [ exact Hc | split; congruence ]. }
  destruct (Hgen (__init__ port baud_rate timeout, w)) as ([Hc Hl] & Hmin & Hmax).
  - split; cbn; [ split; [ discriminate | tauto ] | discriminate ].
  - cbv zeta. tauto.
Qed.

Lemma silent_step (st : t * world) (c : call) :
  serial (fst st) = None -> opens c = false ->
  serial (fst (step st c)) = None /\
  wire (snd (step st c)) = wire (snd st) /\
  last_command (fst (step st c)) = last_command (fst st).
Proof.
  destruct st as [self w]. cbn [fst snd]. intros Hs Ho.
  destruct c as [ o | | e command | e channel position speed time
                | e positions speed time ]; cbn [step].
  - destruct o; [ discriminate | ]. cbn. tauto.
  - unfold disconnect. rewrite Hs. cbn. tauto.
  - unfold send_command. rewrite Hs. cbn. tauto.
  - unfold move_servo.
    destruct ((channel <? 0) || (channel >? 31))%Z; [ cbn; tauto | ].
    destruct ((position <? min_pwm self) || (position >? max_pwm self))%Z;
      [ cbn; tauto | ].
    unfold send_command. rewrite Hs. cbn. tauto.
  - unfold move_multiple_servos.
    destruct (32 <? List.length positions)%nat; [ cbn; tauto | ].
    destruct (servo_commands self positions ""); [ | cbn; tauto ].
    unfold send_command. rewrite Hs. cbn. tauto.
Qed.

(** X19. Nothing reaches the wire while the port is closed: from an instance
    without a port, a sequence of calls in which no [connect] succeeds
    leaves the wire and the last command as they were. *)
Theorem run_closed_port_silent (st : t * world) (calls : list call) :
  serial (fst st) = None ->
  forallb (fun c => negb (opens c)) calls = true ->
  wire (snd (run st calls)) = wire (snd st) /\
  last_command (fst (run st calls)) = last_command (fst st) /\
  serial (fst (run st calls)) = None.
Proof.
  unfold run. revert st. induction calls as [ | c calls IH ]; intros st Hs Hall.
  - cbn. tauto.
  - cbn [forallb] in Hall. apply Bool.andb_true_iff in Hall.
    destruct Hall as [Hc Hall]. apply Bool.negb_true_iff in Hc.
    destruct (silent_step st c Hs Hc) as (Hs' & Hw' & Hl').
    cbn [fold_left].
    destruct (IH (step st c) Hs' Hall) as (Hw & Hl & Hser).
    repeat split; congruence.
Qed.

Lemma run_closed_port_silent_witness :
  wire (snd (run fresh_default
               [Move_servo {| write := Written; clock := 7%R |} 5 1500 None None;
                Connect (OpenError "no port");
                Send_command {| write := Written; clock := 8%R |} "#5P600"]))
  = wire (snd fresh_default) /\
  last_command
    (fst (run fresh_default
            [Move_servo {| write := Written; clock := 7%R |} 5 1500 None None;
             Connect (OpenError "no port");
             Send_command {| write := Written; clock := 8%R |} "#5P600"]))
  = last_command (fst fresh_default) /\
  serial
    (fst (run fresh_default
            [Move_servo {| write := Written; clock := 7%R |} 5 1500 None None;
             Connect (OpenError "no port");
             Send_command {| write := Written; clock := 8%R |} "#5P600"]))
  = None.
Proof.
  apply (run_closed_port_silent fresh_default).
  - reflexivity.
  - reflexivity.
Defined.

End Controller.
